(** * SnapConvert: phone-to-PC photo transfer and OCR document assembly

    A shallow embedding of the protocol code of the repository:
    - [MobileUpload.tsx]      the sender (phone) role,
    - [PhoneUploadModal.tsx]  the receiver (PC) role,
    - [main.tsx]              the role selection on the launch URL,
    - [vite.config.ts]        the build-time resolution of the LAN address,
    - [App.tsx]               OCR extraction and DOCX paragraph assembly.

    React state is a record, every event handler is a function on that
    record, and calls that leave the component (a message handed to the
    data channel, a call of the [onFilesReceived] callback) are logged in
    the record in the order they happen. *)

From Stdlib Require Import ZArith.
From stdpp Require Import base option list strings.

Set Warnings "-register-all".

(** ** JavaScript values shared by all components *)

Module JS.

(** Truthiness of a string: only the empty string is falsy. *)
Definition truthy (s : string) : bool := bool_decide (s ≠ ""%string).

(** Truthiness of an optional field [f?: string]: [undefined] is falsy. *)
Definition truthy_opt (o : option string) : bool :=
  match o with
  | Some s => truthy s
  | None => false
  end.

(** Truthiness of an optional object ([ArrayBuffer]): every object is
    truthy, also an empty buffer; only [undefined] is falsy. *)
Definition truthy_obj {A} (o : option A) : bool :=
  match o with
  | Some _ => true
  | None => false
  end.

(** [a || b] on strings, with [a] possibly [undefined]. *)
Definition or_str (a : option string) (b : string) : string :=
  match a with
  | Some s => if truthy s then s else b
  | None => b
  end.

(** [a || 0] on numbers, with [a] possibly [undefined]. *)
Definition or_zero (a : option Z) : Z :=
  match a with
  | Some n => n
  | None => 0%Z
  end.

(** How a statement sequence completes: normally with a value, or
    abruptly with a thrown exception (a rejected promise under [await]). *)
Inductive completion (A : Type) : Type :=
| Normal (a : A)
| Throw (e : string).
Arguments Normal {A} a.
Arguments Throw {A} e.

Definition bind {A B} (c : completion A) (k : A → completion B) : completion B :=
  match c with
  | Normal a => k a
  | Throw e => Throw e
  end.

(** [try { c } catch (e) { h e }] *)
Definition try_catch {A} (c : completion A) (h : string → completion A) : completion A :=
  match c with
  | Normal a => Normal a
  | Throw e => h e
  end.

(** A [for] loop whose body may throw, run over the values of the index. *)
Fixpoint for_each {A S} (body : A → S → completion S) (l : list A) (s : S) : completion S :=
  match l with
  | [] => Normal s
  | a :: l' => bind (body a s) (for_each body l')
  end.

End JS.

#[global] Instance completion_ret : MRet JS.completion := @JS.Normal.
#[global] Instance completion_bind : MBind JS.completion :=
  fun A B k c => JS.bind c k.

(** ** Files and the messages on the data channel *)

Module Wire.

Definition bytes := list Byte.byte.

Record Blob := { blob_data : bytes; blob_type : string }.

(** The attributes of a DOM [File] the protocol reads or sets. *)
Record File := { name : string; type : string; data : bytes }.

(** [new Blob(parts, { type })]: the parts in order, under the given
    type. The type is kept as given, which is what the constructor does
    with a type that is lower-case printable ASCII, as the type of a
    picked [File] is. *)
Definition new_Blob (parts : list bytes) (ty : string) : Blob :=
  {| blob_data := concat parts; blob_type := ty |}.

(** [new File(parts, name, { type })]: the bytes of the parts in order,
    under the given name and type. *)
Definition new_File (parts : list Blob) (nm ty : string) : File :=
  {| name := nm; type := ty; data := concat (blob_data <$> parts) |}.

(** What travels on the channel: the object literal the sender passes to
    [conn.send], read by the receiver through the cast
    [{ type: string; name?: string; mimeType?: string;
       data?: ArrayBuffer; index?: number; total?: number }]. *)
Record Payload := {
  p_type : string;
  p_name : option string;
  p_mimeType : option string;
  p_data : option bytes;
  p_index : option Z;
  p_total : option Z
}.

(** [await file.arrayBuffer()]: the bytes of the file. *)
Definition arrayBuffer (file : File) : bytes := data file.

(** [{ type: 'file', name: file.name, mimeType: file.type,
       data: arrayBuffer, index: i, total: selectedFiles.length }]
    with [arrayBuffer = await file.arrayBuffer()]. *)
Definition file_message (file : File) (i total : nat) : Payload :=
  {| p_type := "file";
     p_name := Some (name file);
     p_mimeType := Some (type file);
     p_data := Some (arrayBuffer file);
     p_index := Some (Z.of_nat i);
     p_total := Some (Z.of_nat total) |}.

(** [{ type: 'done' }] *)
Definition done_message : Payload :=
  {| p_type := "done"; p_name := None; p_mimeType := None;
     p_data := None; p_index := None; p_total := None |}.

End Wire.

(** ** The sender: [MobileUpload] *)

Module MobileUpload.
Import Wire.

Inductive Status := connecting | connected | sending | done | error.

(** The data connection as the sender sees it: the messages handed to
    [conn.send] so far, oldest first. *)
Record DataConnection := { outbox : list Payload }.

Record State := {
  status : Status;
  selectedFiles : list File;
  sendProgress : nat;
  totalFiles : nat;
  connRef : option DataConnection
}.

Definition setStatus (v : Status) (s : State) : State :=
  {| status := v; selectedFiles := selectedFiles s; sendProgress := sendProgress s;
     totalFiles := totalFiles s; connRef := connRef s |}.
Definition setSendProgress (v : nat) (s : State) : State :=
  {| status := status s; selectedFiles := selectedFiles s; sendProgress := v;
     totalFiles := totalFiles s; connRef := connRef s |}.
Definition setTotalFiles (v : nat) (s : State) : State :=
  {| status := status s; selectedFiles := selectedFiles s; sendProgress := sendProgress s;
     totalFiles := v; connRef := connRef s |}.
Definition setSelectedFiles (v : list File) (s : State) : State :=
  {| status := status s; selectedFiles := v; sendProgress := sendProgress s;
     totalFiles := totalFiles s; connRef := connRef s |}.

(** [conn.send(msg)] on the connection held in [connRef]. *)
Definition conn_send (msg : Payload) (s : State) : State :=
  {| status := status s; selectedFiles := selectedFiles s; sendProgress := sendProgress s;
     totalFiles := totalFiles s;
     connRef := (fun c => {| outbox := outbox c ++ [msg] |}) <$> connRef s |}.

(** The state on mount: [useState('connecting')], no files, no connection.
    The effect sets [error] at once when the launch URL carries no peer
    identifier ([params.get('peer') || '']). *)
Definition mount (remotePeerId : string) : State :=
  {| status := if JS.truthy remotePeerId then connecting else error;
     selectedFiles := []; sendProgress := 0; totalFiles := 0; connRef := None |}.

(** [conn.on('open', ...)] *)
Definition conn_open (s : State) : State :=
  setStatus connected
    {| status := status s; selectedFiles := selectedFiles s; sendProgress := sendProgress s;
       totalFiles := totalFiles s; connRef := Some {| outbox := [] |} |}.

(** [conn.on('close', ...)]:
    [setStatus(prev => prev === 'done' ? 'done' : 'error')] *)
Definition conn_close (s : State) : State :=
  setStatus (match status s with done => done | _ => error end) s.

(** [conn.on('error', ...)] and [peer.on('error', ...)] *)
Definition on_error (s : State) : State := setStatus error s.

(** [handleFileSelect]: the picked files are appended to the selection. *)
Definition handleFileSelect (picked : option (list File)) (s : State) : State :=
  match picked with
  | None => s
  | Some files => setSelectedFiles (selectedFiles s ++ files) s
  end.

(** [removeFile(index)] *)
Definition removeFile (index : nat) (s : State) : State :=
  setSelectedFiles (delete index (selectedFiles s)) s.

(** The body of the [for] loop of [sendFiles] at index [i] in a run
    whose reads succeed; [files] is the [selectedFiles] array captured by
    the callback. Reading a file past the end of the array gives
    [undefined], whose [arrayBuffer] call throws. The pause of 100 ms
    after each message changes no state and is left out; so are a read
    that fails and the handlers that may run while the loop waits. *)
Definition send_one (files : list File) (i : nat) (s : State) : JS.completion State :=
  match files !! i with
  | None => JS.Throw "TypeError"
  | Some file =>
      let s := conn_send (file_message file i (length files)) s in
      JS.Normal (setSendProgress (i + 1) s)
  end.

(** [sendFiles]: returns at once without a connection or without files;
    otherwise sends every file, then the terminator, and ends in [done]. *)
Definition sendFiles (s : State) : JS.completion State :=
  let files := selectedFiles s in
  match connRef s with
  | None => JS.Normal s
  | Some _ =>
      if bool_decide (length files = 0) then JS.Normal s
      else
        let s := setStatus sending s in
        let s := setTotalFiles (length files) s in
        let s := setSendProgress 0 s in
        s ← JS.for_each (send_one files) (seq 0 (length files)) s;
        let s := conn_send done_message s in
        JS.Normal (setStatus done s)
  end.

(** The messages on the connection, [[]] when there is none. *)
Definition sent (s : State) : list Payload :=
  match connRef s with
  | Some c => outbox c
  | None => []
  end.

(** The file messages [sendFiles] builds for a batch, in the order of the
    selection. *)
Definition batch_messages (files : list File) : list Payload :=
  imap (fun i file => file_message file i (length files)) files.

End MobileUpload.

(** ** Build configuration: [vite.config.ts] *)

Module ViteConfig.

(** One entry of [os.networkInterfaces()[name]]. *)
Record NetworkInterfaceInfo := {
  address : string;
  family : string;
  internal : bool
}.

(** [os.networkInterfaces()]: interface names in key order, each with
    its address list ([undefined] is read as [[]] by [|| []]). *)
Definition NetworkInterfaces := list (string * option (list NetworkInterfaceInfo)).

(** The inner loop of [getLocalIP]: the first address of the list that is
    IPv4 and not internal. *)
Fixpoint first_lan_address (ifaces : list NetworkInterfaceInfo) : option string :=
  match ifaces with
  | [] => None
  | iface :: rest =>
      if bool_decide (family iface = "IPv4"%string) && negb (internal iface)
      then Some (address iface)
      else first_lan_address rest
  end.

(** The outer loop of [getLocalIP] over [Object.keys(interfaces)]. *)
Fixpoint scan_interfaces (interfaces : NetworkInterfaces) : option string :=
  match interfaces with
  | [] => None
  | (_, ifaces) :: rest =>
      match first_lan_address (default [] ifaces) with
      | Some a => Some a
      | None => scan_interfaces rest
      end
  end.

(** [getLocalIP()]: the first such address, ['localhost'] without one. *)
Definition getLocalIP (interfaces : NetworkInterfaces) : string :=
  default "localhost"%string (scan_interfaces interfaces).

(** [define: { 'process.env.LOCAL_IP': JSON.stringify(localIP) }]: the
    value every occurrence of [process.env.LOCAL_IP] is replaced with. *)
Definition LOCAL_IP (interfaces : NetworkInterfaces) : option string :=
  Some (getLocalIP interfaces).

End ViteConfig.

(** ** The receiver: [PhoneUploadModal] *)

Module PhoneUploadModal.
Import Wire.

Inductive ModalStatus := initializing | waiting | connected | receiving | done | error.

(** [window.location] as far as the modal reads it. *)
Record Location := {
  protocol : string;   (* 'http:' or 'https:' *)
  hostname : string;
  port : string        (* '' for the scheme's default port *)
}.

(** The component state. [receivedFilesRef] is the one array held in the
    ref for the whole life of the component; [onFilesReceived] is called
    with that array itself, and [delivered] logs what the array holds at
    each call, oldest call first. *)
Record State := {
  status : ModalStatus;
  qrUrl : string;
  receivedCount : nat;
  totalCount : Z;
  receivedFilesRef : list File;
  delivered : list (list File)
}.

Definition init : State :=
  {| status := initializing; qrUrl := ""; receivedCount := 0; totalCount := 0;
     receivedFilesRef := []; delivered := [] |}.

Definition setStatus (v : ModalStatus) (s : State) : State :=
  {| status := v; qrUrl := qrUrl s; receivedCount := receivedCount s;
     totalCount := totalCount s; receivedFilesRef := receivedFilesRef s;
     delivered := delivered s |}.
Definition setQrUrl (v : string) (s : State) : State :=
  {| status := status s; qrUrl := v; receivedCount := receivedCount s;
     totalCount := totalCount s; receivedFilesRef := receivedFilesRef s;
     delivered := delivered s |}.
Definition setReceivedCount (v : nat) (s : State) : State :=
  {| status := status s; qrUrl := qrUrl s; receivedCount := v;
     totalCount := totalCount s; receivedFilesRef := receivedFilesRef s;
     delivered := delivered s |}.
Definition setTotalCount (v : Z) (s : State) : State :=
  {| status := status s; qrUrl := qrUrl s; receivedCount := receivedCount s;
     totalCount := v; receivedFilesRef := receivedFilesRef s;
     delivered := delivered s |}.

(** [receivedFilesRef.current.push(file)] *)
Definition push (file : File) (s : State) : State :=
  {| status := status s; qrUrl := qrUrl s; receivedCount := receivedCount s;
     totalCount := totalCount s; receivedFilesRef := receivedFilesRef s ++ [file];
     delivered := delivered s |}.

(** [onFilesReceived(receivedFilesRef.current)] *)
Definition onFilesReceived (s : State) : State :=
  {| status := status s; qrUrl := qrUrl s; receivedCount := receivedCount s;
     totalCount := totalCount s; receivedFilesRef := receivedFilesRef s;
     delivered := delivered s ++ [receivedFilesRef s] |}.

(** The test [hostname === 'localhost' || hostname === '127.0.0.1']. *)
Definition is_loopback (h : string) : bool :=
  bool_decide (h = "localhost"%string) || bool_decide (h = "127.0.0.1"%string).

(** The address built in [peer.on('open', ...)]; [env_LOCAL_IP] is
    [process.env.LOCAL_IP]. *)
Definition shareable_url (env_LOCAL_IP : option string) (loc : Location) (id : string) : string :=
  let localIP := JS.or_str env_LOCAL_IP (hostname loc) in
  let hostname' := if is_loopback (hostname loc) then localIP else hostname loc in
  let port' := if JS.truthy (port loc) then ":" +:+ port loc else "" in
  let baseUrl := protocol loc +:+ "//" +:+ hostname' +:+ port' in
  baseUrl +:+ "?mode=upload&peer=" +:+ id.

(** [peer.on('open', (id) => ...)] *)
Definition peer_open (env_LOCAL_IP : option string) (loc : Location) (id : string)
    (s : State) : State :=
  setStatus waiting (setQrUrl (shareable_url env_LOCAL_IP loc id) s).

(** [peer.on('connection', ...)] *)
Definition peer_connection (s : State) : State := setStatus connected s.

(** The guard of the first [if] of the data handler:
    [payload.type === 'file' && payload.data && payload.name && payload.mimeType] *)
Definition is_file (payload : Payload) : bool :=
  bool_decide (p_type payload = "file"%string)
  && JS.truthy_obj (p_data payload)
  && JS.truthy_opt (p_name payload)
  && JS.truthy_opt (p_mimeType payload).

(** [conn.on('data', (data) => ...)] *)
Definition conn_data (payload : Payload) (s : State) : State :=
  let s :=
    if is_file payload then
      match p_data payload, p_name payload, p_mimeType payload with
      | Some d, Some nm, Some mt =>
          let blob := new_Blob [d] mt in
          let file := new_File [blob] nm mt in
          let s := push file s in
          let s := setTotalCount (JS.or_zero (p_total payload)) s in
          let s := setReceivedCount (length (receivedFilesRef s)) s in
          setStatus receiving s
      | _, _, _ => s
      end
    else s in
  if bool_decide (p_type payload = "done"%string) then
    onFilesReceived (setStatus done s)
  else s.

(** [conn.on('close', ...)] *)
Definition conn_close (s : State) : State :=
  if bool_decide (0 < length (receivedFilesRef s)) then
    onFilesReceived (setStatus done s)
  else s.

(** [peer.on('error', ...)] *)
Definition peer_error (s : State) : State := setStatus error s.

(** The events the modal reacts to. *)
Inductive Event :=
| PeerOpen (env_LOCAL_IP : option string) (loc : Location) (id : string)
| Connection
| Data (payload : Payload)
| Close
| PeerError.

Definition step (s : State) (e : Event) : State :=
  match e with
  | PeerOpen env loc id => peer_open env loc id s
  | Connection => peer_connection s
  | Data payload => conn_data payload s
  | Close => conn_close s
  | PeerError => peer_error s
  end.

(** The state after a sequence of events, from the mounted component. *)
Definition run (evs : list Event) : State := foldl step init evs.

(** Whether an event is an incoming message whose [type] is ['file']. *)
Definition is_file_type (e : Event) : bool :=
  match e with
  | Data payload => bool_decide (p_type payload = "file"%string)
  | _ => false
  end.

(** Whether an event is an incoming message that passes the guard. *)
Definition is_accepted_file (e : Event) : bool :=
  match e with
  | Data payload => is_file payload
  | _ => false
  end.

Definition count (P : Event → bool) (evs : list Event) : nat :=
  length (filter (fun e => P e = true) evs).

End PhoneUploadModal.

(** ** Role selection: [main.tsx] *)

Module Main.

(** [new URLSearchParams(window.location.search)]: the decoded
    name/value pairs of the query string, in order. *)
Definition URLSearchParams := list (string * string).

(** [params.get(name)]: the value of the first pair named [name]. *)
Fixpoint get (params : URLSearchParams) (name : string) : option string :=
  match params with
  | [] => None
  | (k, v) :: rest => if bool_decide (k = name) then Some v else get rest name
  end.

(** [params.has(name)] *)
Definition has (params : URLSearchParams) (name : string) : bool :=
  bool_decide (is_Some (get params name)).

(** [params.get('mode') === 'upload' && params.has('peer')] *)
Definition isMobileUpload (params : URLSearchParams) : bool :=
  bool_decide (get params "mode" = Some "upload"%string) && has params "peer".

Inductive Role := SenderRole | ReceiverRole.

(** [isMobileUpload ? <MobileUpload /> : <App />] *)
Definition render (params : URLSearchParams) : Role :=
  if isMobileUpload params then SenderRole else ReceiverRole.

(** [params.get('peer') || ''] of [MobileUpload]. *)
Definition remotePeerId (params : URLSearchParams) : string :=
  JS.or_str (get params "peer") "".

(** What the claim asks of the query string: a pair [mode=upload] and a
    [peer] pair with a non-empty value. *)
Definition has_mode_upload (params : URLSearchParams) : Prop :=
  ("mode"%string, "upload"%string) ∈ params.
Definition has_nonempty_peer (params : URLSearchParams) : Prop :=
  ∃ v, ("peer"%string, v) ∈ params ∧ v ≠ ""%string.

End Main.

(** ** OCR extraction and document assembly: [App.tsx] *)

Module App.
Import Wire.

(** The values [JSON.parse] can return. *)
Inductive json :=
| JNull
| JBool (b : bool)
| JNumber (literal : string)
| JString (s : string)
| JArray (items : list json)
| JObject (fields : list (string * json)).

Inductive Alignment := left | center | right.

(** [{ text: string; alignment: 'left' | 'center' | 'right' }] *)
Record Block := { text : string; alignment : Alignment }.

Definition alignment_name (a : Alignment) : string :=
  match a with
  | left => "left"
  | center => "center"
  | right => "right"
  end.

(** A block as a JavaScript object literal. *)
Definition json_of_block (b : Block) : json :=
  JObject [("text"%string, JString (text b));
           ("alignment"%string, JString (alignment_name (alignment b)))].

Record FileItem := { id : string; file : File; preview : string }.

(** The collaborator's answer: [response.text] may be [undefined]. *)
Record GenerateContentResponse := { response_text : option string }.

Section Extraction.

(** [JSON.parse]: [None] stands for the thrown [SyntaxError]. *)
Variable JSON_parse : string → option json.

(** [await ai.models.generateContent(...)] on the image part of a
    file: the answer, or the rejection of the request. *)
Variable generateContent : File → JS.completion GenerateContentResponse.

Definition JSON_parse_c (s : string) : JS.completion json :=
  match JSON_parse s with
  | Some v => JS.Normal v
  | None => JS.Throw "SyntaxError"
  end.

(** The [try]/[catch] at the end of the loop body: the value pushed on
    [extractedData] for one response. *)
Definition parse_response (response : GenerateContentResponse) : JS.completion json :=
  JS.try_catch
    (JSON_parse_c (JS.or_str (response_text response) "[]"))
    (fun _ =>
       JS.Normal (JArray [json_of_block
         {| text := JS.or_str (response_text response) ""; alignment := left |}])).

(** The body of the loop of [extractTextFromImages]. *)
Definition extract_one (fileItem : FileItem) (extractedData : list json)
    : JS.completion (list json) :=
  response ← generateContent (file fileItem);
  parsed ← parse_response response;
  JS.Normal (extractedData ++ [parsed]).

(** [extractTextFromImages]: one entry per image, in order. *)
Definition extractTextFromImages (files : list FileItem) : JS.completion (list json) :=
  JS.for_each extract_one files [].

(** *** What the loop leaves in [extractedData], for the statements below *)

(** The text of a response as it came: [''] when there is none. *)
Definition raw_text (response : GenerateContentResponse) : string :=
  default ""%string (response_text response).

(** The single block the [catch] branch builds. *)
Definition fallback_entry (response : GenerateContentResponse) : json :=
  JArray [json_of_block {| text := raw_text response; alignment := left |}].

(** The entry of [extractedData] for one response. *)
Definition entry_of (response : GenerateContentResponse) : json :=
  match JSON_parse (JS.or_str (response_text response) "[]") with
  | Some parsed => parsed
  | None => fallback_entry response
  end.

End Extraction.

(** [AlignmentType] of the docx library. *)
Inductive AlignmentType := LEFT | CENTER | RIGHT.

(** [new Paragraph({ alignment, children: [new TextRun(t)], spacing })] *)
Record Paragraph := {
  par_alignment : option AlignmentType;
  par_children : list string;
  par_spacing_after : option nat
}.

(** The object literal [alignmentMap], read at [block.alignment]. *)
Definition alignmentMap (a : Alignment) : option AlignmentType :=
  match a with
  | left => Some LEFT
  | center => Some CENTER
  | right => Some RIGHT
  end.

(** The paragraph pushed for one block. *)
Definition block_paragraph (block : Block) : Paragraph :=
  {| par_alignment := Some (default LEFT (alignmentMap (alignment block)));
     par_children := [text block];
     par_spacing_after := Some 200 |}.

(** [new Paragraph({ children: [new TextRun("")] })] *)
Definition blank_paragraph : Paragraph :=
  {| par_alignment := None; par_children := [""%string]; par_spacing_after := None |}.

(** The two accumulators of [convertToDocx]. *)
Record Assembly := { children : list Paragraph; allText : string }.

(** The inner [forEach]: one paragraph per block. *)
Definition push_block (acc : Assembly) (block : Block) : Assembly :=
  {| children := children acc ++ [block_paragraph block];
     allText := allText acc +:+ text block +:+ " " |}.

(** The outer [forEach]: the blocks of one image, then a paragraph
    holding one empty text run. *)
Definition push_image (acc : Assembly) (imageBlocks : list Block) : Assembly :=
  let acc := foldl push_block acc imageBlocks in
  {| children := children acc ++ [blank_paragraph]; allText := allText acc |}.

(** [convertToDocx] up to the call of the document writer: the children
    of the single section, and the text handed to [generateFileName]. *)
Definition convertToDocx (extractedData : list (list Block)) : Assembly :=
  foldl push_image {| children := []; allText := "" |} extractedData.

(** The document the claim describes: the paragraphs of each image in
    order, one blank paragraph between consecutive images and none after
    the last. *)
Fixpoint separated_document (extractedData : list (list Block)) : list Paragraph :=
  match extractedData with
  | [] => []
  | [imageBlocks] => block_paragraph <$> imageBlocks
  | imageBlocks :: rest =>
      (block_paragraph <$> imageBlocks) ++ [blank_paragraph] ++ separated_document rest
  end.

End App.

(** ** Concrete inputs used to exercise the statements below *)

Module Examples.
Import Wire.

Definition jpeg : File :=
  {| name := "a.jpg"; type := "image/jpeg";
     data := [Byte.xff; Byte.xd8; Byte.xff; Byte.xe0] |}.

Definition png : File :=
  {| name := "b.png"; type := "image/png";
     data := [Byte.x89; Byte.x50; Byte.x4e; Byte.x47] |}.

(** A file whose MIME type the browser does not know: [file.type] is ['']. *)
Definition untyped : File :=
  {| name := "scan.heic"; type := ""; data := [Byte.x00; Byte.x01] |}.

(** A sender that is connected and has two photos selected. *)
Definition ready : MobileUpload.State :=
  {| MobileUpload.status := MobileUpload.connected;
     MobileUpload.selectedFiles := [jpeg; png];
     MobileUpload.sendProgress := 0;
     MobileUpload.totalFiles := 0;
     MobileUpload.connRef := Some {| MobileUpload.outbox := [] |} |}.

(** A sender that has completed a transfer. *)
Definition finished : MobileUpload.State :=
  MobileUpload.setStatus MobileUpload.done ready.

(** A development machine: loopback first, then one LAN interface. *)
Definition laptop : ViteConfig.NetworkInterfaces :=
  [("lo"%string,
    Some [{| ViteConfig.address := "127.0.0.1"; ViteConfig.family := "IPv4";
             ViteConfig.internal := true |}]);
   ("wlan0"%string,
    Some [{| ViteConfig.address := "fe80::1"; ViteConfig.family := "IPv6";
             ViteConfig.internal := false |};
          {| ViteConfig.address := "192.168.1.23"; ViteConfig.family := "IPv4";
             ViteConfig.internal := false |}])].

Definition dev_page : PhoneUploadModal.Location :=
  {| PhoneUploadModal.protocol := "http:"; PhoneUploadModal.hostname := "localhost";
     PhoneUploadModal.port := "3000" |}.

(** The launch URL [?mode=upload&peer=]: a [peer] parameter with an empty value. *)
Definition empty_peer_query : Main.URLSearchParams :=
  [("mode"%string, "upload"%string); ("peer"%string, ""%string)].

(** The double quote character, and the text
    [[{"text":"Hi","alignment":"center"}]] of a well-formed answer. *)
Definition dquote : string :=
  String (Ascii.Ascii false true false false false true false false) EmptyString.

Definition hi_answer : string :=
  "[{" +:+ dquote +:+ "text" +:+ dquote +:+ ":" +:+ dquote +:+ "Hi" +:+ dquote +:+ ","
  +:+ dquote +:+ "alignment" +:+ dquote +:+ ":" +:+ dquote +:+ "center" +:+ dquote +:+ "}]".

(** A stand-in for [JSON.parse] that knows two documents and rejects the rest. *)
Definition toy_parse (s : string) : option App.json :=
  if bool_decide (s = "[]"%string) then Some (App.JArray [])
  else if bool_decide (s = hi_answer) then
    Some (App.JArray [App.json_of_block {| App.text := "Hi"; App.alignment := App.center |}])
  else None.

(** A stand-in for the OCR collaborator: prose for the untyped file, a
    block array for the others. *)
Definition toy_ocr (f : File) : JS.completion App.GenerateContentResponse :=
  if bool_decide (type f = ""%string) then
    JS.Normal {| App.response_text := Some "Sorry, I cannot read this."%string |}
  else
    JS.Normal {| App.response_text := Some hi_answer |}.

Definition item (f : File) : App.FileItem :=
  {| App.id := name f; App.file := f; App.preview := "blob:" +:+ name f |}.

End Examples.

(** ** More of [App.tsx]: the progress ticker and the file name *)

Module Progress.

(** The updater of the interval in [handleConvert] and
    [handleExtractText]: [prev => prev >= 90 ? 90 : prev + 10]. *)
Definition tick (prev : Z) : Z := if (90 <=? prev)%Z then 90%Z else (prev + 10)%Z.

(** The progress shown after [n] ticks of the interval, from the
    [setProgress(0)] that starts a conversion. *)
Definition progress_after (n : nat) : Z := Nat.iter n tick 0%Z.

End Progress.

Module FileName.

(** A JavaScript string as its sequence of UTF-16 code units. *)
Definition JSString := list N.

Definition hyphen : N := 45.

Definition is_digit (c : N) : bool := (48 <=? c)%N && (c <=? 57)%N.
Definition is_upper (c : N) : bool := (65 <=? c)%N && (c <=? 90)%N.
Definition is_lower (c : N) : bool := (97 <=? c)%N && (c <=? 122)%N.

(** The class [[a-zA-Z0-9\-]]. *)
Definition in_class (c : N) : bool :=
  is_lower c || is_upper c || is_digit c || (c =? hyphen)%N.

(** The code units [trim] removes: white space and line terminators. *)
Definition is_white_space (c : N) : bool :=
  ((9 <=? c)%N && (c <=? 13)%N)
  || (c =? 32)%N || (c =? 160)%N || (c =? 5760)%N
  || ((8192 <=? c)%N && (c <=? 8202)%N)
  || (c =? 8232)%N || (c =? 8233)%N || (c =? 8239)%N || (c =? 8287)%N
  || (c =? 12288)%N || (c =? 65279)%N.

Fixpoint trimStart (s : JSString) : JSString :=
  match s with
  | [] => []
  | c :: rest => if is_white_space c then trimStart rest else s
  end.

(** [s.trim()] *)
Definition trim (s : JSString) : JSString :=
  reverse (trimStart (reverse (trimStart s))).

(** [.replace(/[^a-zA-Z0-9\-]/g, '-')] *)
Definition replace_outside_class (s : JSString) : JSString :=
  (fun c => if in_class c then c else hyphen) <$> s.

(** [.replace(/-+/g, '-')]: of every run of hyphens only the last stays. *)
Fixpoint collapse_hyphens (s : JSString) : JSString :=
  match s with
  | [] => []
  | c :: rest =>
      match rest with
      | c' :: _ =>
          if (c =? hyphen)%N && (c' =? hyphen)%N then collapse_hyphens rest
          else c :: collapse_hyphens rest
      | [] => [c]
      end
  end.

(** The [^-] alternative of [.replace(/^-|-$/g, '')]. *)
Definition strip_leading_hyphen (s : JSString) : JSString :=
  match s with
  | c :: rest => if (c =? hyphen)%N then rest else s
  | [] => []
  end.

(** The [-$] alternative, on what the first one left. *)
Fixpoint strip_trailing_hyphen (s : JSString) : JSString :=
  match s with
  | [] => []
  | c :: rest =>
      match rest with
      | [] => if (c =? hyphen)%N then [] else [c]
      | _ :: _ => c :: strip_trailing_hyphen rest
      end
  end.

(** [.toLowerCase()] on the code units the replacements leave (ASCII
    letters, digits and the hyphen): the capital letters move down by 32. *)
Definition toLowerCase (s : JSString) : JSString :=
  (fun c => if is_upper c then (c + 32)%N else c) <$> s.

(** ['document'] *)
Definition document : JSString := [100; 111; 99; 117; 109; 101; 110; 116]%N.

(** [a || b] on strings, with [a] possibly [undefined]. *)
Definition or_else (a : option JSString) (b : JSString) : JSString :=
  match a with
  | Some (c :: rest) => c :: rest
  | _ => b
  end.

(** The chain of string operations on the answer. *)
Definition sanitize (text : JSString) : JSString :=
  toLowerCase
    (strip_trailing_hyphen
       (strip_leading_hyphen
          (collapse_hyphens (replace_outside_class (trim text))))).

(** [generateFileName(allText)]. [generateContent] is the collaborator,
    given the part of the prompt that varies, [allText.slice(0, 500)]; it
    answers with [response.text] or rejects. Every failure inside the
    [try] ends in ['document']. *)
Definition generateFileName
    (generateContent : JSString → JS.completion (option JSString))
    (allText : JSString) : JSString :=
  match generateContent (take 500 allText) with
  | JS.Throw _ => document
  | JS.Normal response_text =>
      let name := sanitize (or_else response_text document) in
      or_else (Some name) document
  end.

(** The code units of a finished name: lower-case letters, digits, hyphen. *)
Definition is_name_unit (c : N) : bool :=
  is_lower c || is_digit c || (c =? hyphen)%N.

(** Whether two hyphens stand next to each other somewhere in the string. *)
Fixpoint has_hyphen_pair (s : JSString) : bool :=
  match s with
  | [] => false
  | c :: rest =>
      match rest with
      | c' :: _ => ((c =? hyphen)%N && (c' =? hyphen)%N) || has_hyphen_pair rest
      | [] => false
      end
  end.

End FileName.

(** ** [convertToDocx] and [handleConvert] on what [JSON.parse] returned *)

Module Conversion.
Import App.

(** Calling [forEach] on an entry of [extractedData]: an array is gone
    through item by item; [null] has no properties and every other value
    has no callable [forEach], so the call throws a [TypeError]. *)
Definition forEach_items (entry : json) : JS.completion (list json) :=
  match entry with
  | JArray items => JS.Normal items
  | _ => JS.Throw "TypeError"
  end.

Inductive Outcome :=
| Converted
| Alerted (message : string).

Section Convert.

Variable JSON_parse : string → option json.
Variable generateContent : Wire.File → JS.completion GenerateContentResponse.

(** The callback of the inner [forEach] on one item: the reads of
    [block.text] and [block.alignment] and the paragraph built from them
    by the docx library. *)
Variable push_item : json → Assembly → JS.completion Assembly.

(** What follows the loops: [Packer.toBlob], [generateFileName] and the
    setters of the result. *)
Variable finish : Assembly → JS.completion unit.

(** The callback of the outer [forEach]. *)
Definition push_entry (entry : json) (acc : Assembly) : JS.completion Assembly :=
  items ← forEach_items entry;
  acc ← JS.for_each push_item items acc;
  JS.Normal {| children := children acc ++ [blank_paragraph]; allText := allText acc |}.

(** [convertToDocx], from the extraction to the stored result. *)
Definition convertToDocx (files : list FileItem) : JS.completion unit :=
  extractedData ← extractTextFromImages JSON_parse generateContent files;
  acc ← JS.for_each push_entry extractedData {| children := []; allText := "" |};
  finish acc.

(** [handleConvert]: nothing happens without files; otherwise the
    conversion runs inside [try], and anything it throws ends in
    [alert(t.conversionFailed)]. *)
Definition handleConvert (conversionFailed : string) (files : list FileItem)
    : option Outcome :=
  if bool_decide (length files = 0) then None
  else Some (match convertToDocx files with
             | JS.Normal _ => Converted
             | JS.Throw _ => Alerted conversionFailed
             end).

End Convert.

End Conversion.

(** ** Terms of the specification *)

Module SpecTerms.

(** A loopback name: a host name that designates the machine itself,
    that is [localhost], the IPv6 literal of the loopback address, or an
    IPv4 literal of the block 127.0.0.0/8 (first octet 127). *)
Definition is_loopback_name (h : string) : bool :=
  bool_decide (h = "localhost"%string)
  || bool_decide (h = "[::1]"%string)
  || String.prefix "127." h.

End SpecTerms.

Module MoreExamples.
Import Wire.

(** The development server opened through the IPv6 loopback address. *)
Definition ipv6_page : PhoneUploadModal.Location :=
  {| PhoneUploadModal.protocol := "http:"; PhoneUploadModal.hostname := "[::1]";
     PhoneUploadModal.port := "3000" |}.

(** A build machine with no network but the loopback interface. *)
Definition offline_machine : ViteConfig.NetworkInterfaces :=
  [("lo"%string,
    Some [{| ViteConfig.address := "127.0.0.1"; ViteConfig.family := "IPv4";
             ViteConfig.internal := true |}])].

(** A sender that is connected and has selected one file of a type the
    browser does not know. *)
Definition ready_untyped : MobileUpload.State :=
  {| MobileUpload.status := MobileUpload.connected;
     MobileUpload.selectedFiles := [Examples.untyped];
     MobileUpload.sendProgress := 0;
     MobileUpload.totalFiles := 0;
     MobileUpload.connRef := Some {| MobileUpload.outbox := [] |} |}.

(** The launch URL [?mode=upload&peer=abc-123]. *)
Definition scanned_query : Main.URLSearchParams :=
  [("mode"%string, "upload"%string); ("peer"%string, "abc-123"%string)].

(** A payload of a type the protocol does not define. *)
Definition ping : Payload :=
  {| p_type := "ping"; p_name := None; p_mimeType := None; p_data := None;
     p_index := None; p_total := None |}.

(** The code units of [invoice-2024]. *)
Definition invoice_2024 : FileName.JSString :=
  [105; 110; 118; 111; 105; 99; 101; 45; 50; 48; 50; 52]%N.

(** The code units of [ Invoice #2024! ] with a space at either end. *)
Definition raw_invoice : FileName.JSString :=
  [32; 73; 110; 118; 111; 105; 99; 101; 32; 35; 50; 48; 50; 52; 33; 32]%N.

(** A collaborator that always answers with [raw_invoice]. *)
Definition name_oracle (prompt : FileName.JSString)
    : JS.completion (option FileName.JSString) :=
  JS.Normal (Some raw_invoice).




End MoreExamples.

(** * Properties of the sender *)

Section SenderFacts.
Import Wire MobileUpload.

Lemma batch_messages_length files : length (batch_messages files) = length files.
Proof. unfold batch_messages. by rewrite length_imap. Qed.

Lemma batch_messages_lookup files i :
  batch_messages files !! i = (fun file => file_message file i (length files)) <$> files !! i.
Proof. unfold batch_messages. by rewrite list_lookup_imap. Qed.

Lemma conn_send_sent msg s c :
  connRef s = Some c → connRef (conn_send msg s) = Some {| outbox := outbox c ++ [msg] |}.
Proof. intros E. unfold conn_send; simpl. by rewrite E. Qed.

(** The loop from index [i] for [n] rounds sends messages [i .. i+n-1] of
    the batch and touches neither the status nor the selection. *)
Lemma send_loop_spec files n : ∀ i s c,
  connRef s = Some c → i + n ≤ length files →
  ∃ s', JS.for_each (send_one files) (seq i n) s = JS.Normal s'
      ∧ connRef s' = Some {| outbox := outbox c ++ take n (drop i (batch_messages files)) |}
      ∧ status s' = status s
      ∧ selectedFiles s' = selectedFiles s
      ∧ totalFiles s' = totalFiles s
      ∧ sendProgress s' = (if n is 0 then sendProgress s else i + n).
Proof.
  induction n as [|n IH]; intros i s c Hc Hle.
  - exists s. simpl. rewrite app_nil_r. by destruct c.
  - destruct (lookup_lt_is_Some_2 files i ltac:(lia)) as [file Hfile].
    pose proof (conn_send_sent (file_message file i (length files)) s c Hc) as Hc1.
    set (s1 := setSendProgress (i + 1) (conn_send (file_message file i (length files)) s)).
    destruct (IH (S i) s1 _ Hc1 ltac:(lia)) as (s' & Hrun & Hc' & Hst & Hsel & Htot & Hprog).
    exists s'. repeat split.
    + simpl. unfold send_one at 1. rewrite Hfile. simpl. exact Hrun.
    + rewrite Hc'. f_equal. f_equal. simpl. rewrite <- app_assoc. f_equal.
      rewrite (drop_S (batch_messages files) (file_message file i (length files)) i).
      * reflexivity.
      * rewrite batch_messages_lookup, Hfile. reflexivity.
    + rewrite Hst. reflexivity.
    + rewrite Hsel. reflexivity.
    + rewrite Htot. reflexivity.
    + rewrite Hprog. destruct n; simpl; lia.
Qed.

(** A run of [sendFiles] with a connection and a non-empty selection. *)
Lemma sendFiles_spec s c :
  connRef s = Some c → selectedFiles s ≠ [] →
  ∃ s', sendFiles s = JS.Normal s'
      ∧ connRef s' = Some {| outbox := outbox c ++ batch_messages (selectedFiles s) ++ [done_message] |}
      ∧ status s' = done
      ∧ sendProgress s' = length (selectedFiles s)
      ∧ totalFiles s' = length (selectedFiles s).
Proof.
  intros Hc Hne. unfold sendFiles. rewrite Hc.
  rewrite bool_decide_eq_false_2 by (destruct (selectedFiles s); [done | simpl; lia]).
  set (files := selectedFiles s).
  set (s0 := setSendProgress 0 (setTotalFiles (length files) (setStatus sending s))).
  destruct (send_loop_spec files (length files) 0 s0 c Hc ltac:(lia))
    as (s' & Hrun & Hc' & _ & _ & Htot & Hprog).
  exists (setStatus done (conn_send done_message s')). repeat split.
  - unfold mbind, completion_bind. rewrite Hrun. reflexivity.
  - simpl. rewrite Hc'. simpl. rewrite drop_0.
    rewrite firstn_all2 by (rewrite batch_messages_length; lia).
    by rewrite app_assoc.
  - simpl. rewrite Hprog. destruct (length files) eqn:E; [|lia].
    destruct files; [done | discriminate].
  - simpl. rewrite Htot. reflexivity.
Qed.

End SenderFacts.

Section SenderClaims.
Import Wire MobileUpload.

(** C1. A run of [sendFiles] with an open connection and a batch of
    [N >= 1] selected files completes normally and adds to the channel
    exactly [N] file messages, the one at position [i] carrying
    [index = i] and [total = N], followed by exactly one done message and
    nothing else. *)
Theorem sendFiles_transmits_batch_then_done (s : State) (c : DataConnection) (N : nat) :
  connRef s = Some c →
  length (selectedFiles s) = N →
  1 ≤ N →
  ∃ s' msgs,
    sendFiles s = JS.Normal s'
    ∧ sent s' = outbox c ++ msgs ++ [done_message]
    ∧ length msgs = N
    ∧ (∀ i m, msgs !! i = Some m →
         p_type m = "file"%string
         ∧ p_index m = Some (Z.of_nat i)
         ∧ p_total m = Some (Z.of_nat N))
    ∧ p_type done_message = "done"%string
    ∧ status s' = done.
Proof.
  intros Hc HN Hpos.
  assert (selectedFiles s ≠ []) as Hne.
  { intros E. rewrite E in HN. simpl in HN. lia. }
  destruct (sendFiles_spec s c Hc Hne) as (s' & Hrun & Hc' & Hst & _ & _).
  exists s', (batch_messages (selectedFiles s)).
  split; [exact Hrun|].
  split; [unfold sent; rewrite Hc'; reflexivity|].
  split; [rewrite batch_messages_length; exact HN|].
  split; [|split; [reflexivity | exact Hst]].
  intros i m Hm. rewrite batch_messages_lookup in Hm.
  destruct (selectedFiles s !! i) as [file|] eqn:Hfile; simpl in Hm; [|discriminate].
  injection Hm as <-. subst N. simpl. auto.
Qed.

Lemma sendFiles_transmits_batch_then_done_witness :
  ∃ s' msgs,
    sendFiles Examples.ready = JS.Normal s'
    ∧ sent s' = [] ++ msgs ++ [done_message]
    ∧ length msgs = 2
    ∧ (∀ i m, msgs !! i = Some m →
         p_type m = "file"%string
         ∧ p_index m = Some (Z.of_nat i)
         ∧ p_total m = Some (Z.of_nat 2))
    ∧ p_type done_message = "done"%string
    ∧ status s' = done.
Proof.
  apply (sendFiles_transmits_batch_then_done Examples.ready {| outbox := [] |} 2);
    [reflexivity | reflexivity | lia].
Defined.

(** C7. When the data channel closes, a sender that is in [done] stays in
    [done], and a sender in any other state moves to [error]. *)
Theorem sender_close_after_done (s : State) :
  (status s = done → status (conn_close s) = done)
  ∧ (status s ≠ done → status (conn_close s) = error).
Proof.
  unfold conn_close. split; intros H; simpl.
  - by rewrite H.
  - by destruct (status s).
Qed.

End SenderClaims.

Lemma sender_close_after_done_witness :
  MobileUpload.status (MobileUpload.conn_close Examples.finished) = MobileUpload.done
  ∧ MobileUpload.status (MobileUpload.conn_close Examples.ready) = MobileUpload.error.
Proof.
  split.
  - apply (proj1 (sender_close_after_done Examples.finished)). reflexivity.
  - apply (proj2 (sender_close_after_done Examples.ready)). discriminate.
Defined.

(** * Properties of the receiver *)

Section ReceiverFacts.
Import Wire PhoneUploadModal.

(** A message that passes the guard is a file message with all three
    fields present and the two strings non-empty. *)
Lemma is_file_true payload :
  is_file payload = true →
  p_type payload = "file"%string
  ∧ ∃ d nm mt, p_data payload = Some d ∧ p_name payload = Some nm
      ∧ p_mimeType payload = Some mt ∧ nm ≠ ""%string ∧ mt ≠ ""%string.
Proof.
  unfold is_file. rewrite !andb_true_iff, bool_decide_eq_true.
  intros [[[Ht Hd] Hn] Hm]. split; [exact Ht|].
  destruct (p_data payload) as [d|]; [|discriminate].
  destruct (p_name payload) as [nm|]; [|discriminate].
  destruct (p_mimeType payload) as [mt|]; [|discriminate].
  exists d, nm, mt. unfold JS.truthy_opt, JS.truthy in *.
  apply bool_decide_eq_true in Hn, Hm. auto.
Qed.

Lemma file_is_not_done payload :
  p_type payload = "file"%string → bool_decide (p_type payload = "done"%string) = false.
Proof. intros ->. reflexivity. Qed.

(** An accepted message appends the rebuilt file and delivers nothing. *)
Lemma conn_data_accepted payload s d nm mt :
  is_file payload = true →
  p_data payload = Some d → p_name payload = Some nm → p_mimeType payload = Some mt →
  receivedFilesRef (conn_data payload s) = receivedFilesRef s ++ [new_File [new_Blob [d] mt] nm mt]
  ∧ delivered (conn_data payload s) = delivered s
  ∧ status (conn_data payload s) = receiving.
Proof.
  intros Hf Hd Hn Hm. unfold conn_data.
  rewrite Hf, Hd, Hn, Hm.
  rewrite file_is_not_done by (apply is_file_true in Hf; tauto).
  auto.
Qed.

(** Any other message leaves the array as it is. *)
Lemma conn_data_rejected payload s :
  is_file payload = false →
  receivedFilesRef (conn_data payload s) = receivedFilesRef s.
Proof.
  intros Hf. unfold conn_data. rewrite Hf.
  by destruct (bool_decide (p_type payload = "done"%string)).
Qed.

Lemma step_length s e :
  length (receivedFilesRef (step s e)) =
  length (receivedFilesRef s) + (if is_accepted_file e then 1 else 0).
Proof.
  destruct e as [env loc i| |payload| |]; simpl; try lia.
  - destruct (is_file payload) eqn:Hf.
    + destruct (is_file_true _ Hf) as (_ & d & nm & mt & Hd & Hn & Hm & _).
      destruct (conn_data_accepted payload s d nm mt Hf Hd Hn Hm) as (-> & _).
      rewrite length_app. simpl. lia.
    + rewrite conn_data_rejected by exact Hf. lia.
  - unfold conn_close. destruct (bool_decide _); simpl; lia.
Qed.

Lemma count_snoc P evs e :
  count P (evs ++ [e]) = count P evs + (if P e then 1 else 0).
Proof.
  unfold count. rewrite filter_app, length_app. f_equal.
  destruct (P e) eqn:E.
  - rewrite filter_cons_True by exact E. reflexivity.
  - rewrite filter_cons_False by (rewrite E; discriminate). reflexivity.
Qed.

(** The array always holds one file per accepted message received so far. *)
Lemma run_length evs :
  length (receivedFilesRef (run evs)) = count is_accepted_file evs.
Proof.
  induction evs as [|e evs IH] using rev_ind; [reflexivity|].
  unfold run in *. rewrite foldl_app. simpl.
  rewrite step_length, IH, count_snoc. reflexivity.
Qed.

(** What a single event hands to the hosting application: nothing, or the
    array as it stands. *)
Lemma step_delivered s e :
  delivered (step s e) = delivered s
  ∨ delivered (step s e) = delivered s ++ [receivedFilesRef s].
Proof.
  destruct e as [env loc i| |payload| |]; simpl; auto.
  - destruct (is_file payload) eqn:Hf.
    + destruct (is_file_true _ Hf) as (_ & d & nm & mt & Hd & Hn & Hm & _).
      destruct (conn_data_accepted payload s d nm mt Hf Hd Hn Hm) as (_ & -> & _). auto.
    + unfold conn_data. rewrite Hf.
      destruct (bool_decide (p_type payload = "done"%string)); simpl; auto.
  - unfold conn_close. destruct (bool_decide _); simpl; auto.
Qed.

Lemma conn_data_done payload s :
  p_type payload = "done"%string →
  conn_data payload s = onFilesReceived (setStatus done s).
Proof.
  intros Ht. unfold conn_data, is_file. rewrite Ht. reflexivity.
Qed.

End ReceiverFacts.

Section ReceiverClaims.
Import Wire PhoneUploadModal.

(** C2 (the code departs from the claim). After one photo and the done
    message the receiver is in [done] and has called [onFilesReceived]
    once; the close of the channel that follows calls it a second time
    with the same array. *)
Theorem receiver_close_after_done_delivers_again :
  let st := run [Connection; Data (file_message Examples.jpeg 0 1); Data done_message] in
  status st = done
  ∧ delivered st = [[Examples.jpeg]]
  ∧ status (step st Close) = done
  ∧ delivered (step st Close) = [[Examples.jpeg]; [Examples.jpeg]].
Proof. repeat split. Qed.

(** The same in general: whenever at least one file has been received, a
    close after the done message is one more call of [onFilesReceived]. *)
Lemma conn_close_after_done_general payload s :
  p_type payload = "done"%string →
  0 < length (receivedFilesRef s) →
  delivered (conn_close (conn_data payload s))
  = delivered s ++ [receivedFilesRef s; receivedFilesRef s].
Proof.
  intros Ht Hlen. rewrite conn_data_done by exact Ht.
  unfold conn_close. simpl.
  rewrite bool_decide_eq_true_2 by exact Hlen. simpl.
  by rewrite <- app_assoc.
Qed.

(** C3 as stated fails: a message of type [file] whose MIME type is empty
    is received but not stored, so the collection delivered on the done
    message is empty although one file-type message came before it. *)
Lemma finalized_length_ignores_dropped_file_messages :
  let pre := [Connection; Data (file_message Examples.untyped 0 1)] in
  ∃ fs,
    delivered (step (run pre) (Data done_message)) = delivered (run pre) ++ [fs]
    ∧ length fs = 0
    ∧ count is_file_type pre = 1.
Proof. exists []. repeat split. Qed.

(** C3, amended. After any sequence of events [pre], whatever the next
    event hands to the hosting application has as many files as [pre] has
    file messages that pass the guard (type [file], data present, name and
    MIME type non-empty); a done message always hands over such a
    collection; a close does so when at least one file was stored, and
    only then: with none stored it hands over nothing and changes
    nothing. *)
Theorem finalized_length_counts_accepted_files (pre : list Event) :
  let n := count is_accepted_file pre in
  (∀ e fs, delivered (step (run pre) e) = delivered (run pre) ++ [fs] → length fs = n)
  ∧ (∀ payload, p_type payload = "done"%string →
       ∃ fs, delivered (step (run pre) (Data payload)) = delivered (run pre) ++ [fs]
             ∧ length fs = n)
  ∧ (0 < n →
       ∃ fs, delivered (step (run pre) Close) = delivered (run pre) ++ [fs]
             ∧ length fs = n)
  ∧ (n = 0 →
       step (run pre) Close = run pre
       ∧ delivered (step (run pre) Close) = delivered (run pre)).
Proof.
  simpl. split; [|split; [|split]].
  4: { intros Hn.
       assert (conn_close (run pre) = run pre) as E; [|by rewrite E].
       unfold conn_close. rewrite bool_decide_eq_false_2; [reflexivity|].
       rewrite run_length, Hn. lia. }
  - intros e fs H.
    destruct (step_delivered (run pre) e) as [E|E]; rewrite E in H.
    + apply (f_equal length) in H. rewrite length_app in H. simpl in H. lia.
    + apply app_inv_head in H. injection H as <-. apply run_length.
  - intros payload Ht. exists (receivedFilesRef (run pre)).
    split; [|apply run_length].
    simpl. rewrite conn_data_done by exact Ht. reflexivity.
  - intros Hn. exists (receivedFilesRef (run pre)).
    split; [|apply run_length].
    simpl. unfold conn_close.
    rewrite bool_decide_eq_true_2 by (rewrite run_length; exact Hn). reflexivity.
Qed.

Lemma finalized_length_counts_accepted_files_witness :
  let pre := [Connection; Data (file_message Examples.jpeg 0 2);
              Data (file_message Examples.untyped 1 2)] in
  delivered (step (run pre) Close) = delivered (run pre) ++ [[Examples.jpeg]]
  ∧ length [Examples.jpeg] = count is_accepted_file pre.
Proof.
  simpl. split; [reflexivity|].
  apply (proj1 (finalized_length_counts_accepted_files
                  [Connection; Data (file_message Examples.jpeg 0 2);
                   Data (file_message Examples.untyped 1 2)]) Close [Examples.jpeg]).
  reflexivity.
Defined.

(** C10. A message of type [file] whose name, MIME type or data is missing
    or falsy changes nothing: the array, the two counters, the status and
    everything else in the state stay as they were. *)
Theorem incomplete_file_message_is_discarded (payload : Payload) (s : State) :
  p_type payload = "file"%string →
  JS.truthy_opt (p_name payload) = false
  ∨ JS.truthy_opt (p_mimeType payload) = false
  ∨ JS.truthy_obj (p_data payload) = false →
  conn_data payload s = s
  ∧ receivedFilesRef (conn_data payload s) = receivedFilesRef s
  ∧ receivedCount (conn_data payload s) = receivedCount s
  ∧ totalCount (conn_data payload s) = totalCount s
  ∧ status (conn_data payload s) = status s.
Proof.
  intros Ht Hfalsy.
  assert (conn_data payload s = s) as E.
  { unfold conn_data.
    rewrite file_is_not_done by exact Ht.
    replace (is_file payload) with false; [reflexivity|].
    unfold is_file. destruct Hfalsy as [H|[H|H]]; rewrite H;
      rewrite ?andb_false_r; reflexivity. }
  rewrite E. auto.
Qed.

Lemma incomplete_file_message_is_discarded_witness :
  let nameless :=
    {| p_type := "file"; p_name := Some ""%string; p_mimeType := Some "image/jpeg"%string;
       p_data := Some (data Examples.jpeg); p_index := Some 1%Z; p_total := Some 2%Z |} in
  let s := run [Connection; Data (file_message Examples.jpeg 0 2)] in
  conn_data nameless s = s
  ∧ receivedFilesRef (conn_data nameless s) = receivedFilesRef s
  ∧ receivedCount (conn_data nameless s) = receivedCount s
  ∧ totalCount (conn_data nameless s) = totalCount s
  ∧ status (conn_data nameless s) = status s.
Proof.
  apply incomplete_file_message_is_discarded; [reflexivity | left; reflexivity].
Defined.

End ReceiverClaims.

(** * Sender and receiver together *)

Section RoundTrip.
Import Wire.

(** The message [sendFiles] puts on the channel for the file at position
    [i] of the selection. *)
Lemma sendFiles_message_at s c s' i f m :
  MobileUpload.connRef s = Some c →
  MobileUpload.sendFiles s = JS.Normal s' →
  MobileUpload.selectedFiles s !! i = Some f →
  MobileUpload.sent s' !! (length (MobileUpload.outbox c) + i) = Some m →
  m = file_message f i (length (MobileUpload.selectedFiles s)).
Proof.
  intros Hc Hrun Hf Hm.
  assert (MobileUpload.selectedFiles s ≠ []) as Hne.
  { intros E. rewrite E in Hf. discriminate. }
  destruct (sendFiles_spec s c Hc Hne) as (s'' & Hrun' & Hc' & _).
  rewrite Hrun in Hrun'. injection Hrun' as <-.
  unfold MobileUpload.sent in Hm. rewrite Hc' in Hm. simpl in Hm.
  rewrite lookup_app_r in Hm by lia.
  replace (length (MobileUpload.outbox c) + i - length (MobileUpload.outbox c)) with i in Hm by lia.
  rewrite lookup_app_l in Hm
    by (rewrite batch_messages_length; by apply lookup_lt_Some in Hf).
  rewrite batch_messages_lookup, Hf in Hm. simpl in Hm. congruence.
Qed.

(** What the receiver does with the message built for a file. *)
Lemma conn_data_file_message f i total r :
  PhoneUploadModal.receivedFilesRef (PhoneUploadModal.conn_data (file_message f i total) r)
  = if JS.truthy (name f) && JS.truthy (type f)
    then PhoneUploadModal.receivedFilesRef r
         ++ [{| name := name f; type := type f; data := data f |}]
    else PhoneUploadModal.receivedFilesRef r.
Proof.
  destruct (PhoneUploadModal.is_file (file_message f i total)) eqn:Hf.
  - destruct (conn_data_accepted _ r (data f) (name f) (type f) Hf eq_refl eq_refl eq_refl)
      as (-> & _).
    unfold PhoneUploadModal.is_file in Hf. simpl in Hf. rewrite Hf.
    unfold new_File, new_Blob. simpl. by rewrite !app_nil_r.
  - rewrite conn_data_rejected by exact Hf.
    unfold PhoneUploadModal.is_file in Hf. simpl in Hf. by rewrite Hf.
Qed.

(** C4 as stated fails: the sender transmits a file whose MIME type is
    empty as a file message like any other, and the receiver appends no
    file object for it; the file is not reconstructed. *)
Lemma untyped_file_is_not_reconstructed :
  ∃ s' m,
    MobileUpload.sendFiles MoreExamples.ready_untyped = JS.Normal s'
    ∧ MobileUpload.sent s' !! 0 = Some m
    ∧ p_type m = "file"%string
    ∧ p_name m = Some "scan.heic"%string
    ∧ p_mimeType m = Some ""%string
    ∧ PhoneUploadModal.receivedFilesRef
        (PhoneUploadModal.conn_data m (PhoneUploadModal.run [PhoneUploadModal.Connection]))
      = [].
Proof. eexists _, _. repeat split. Qed.

(** C4, amended. Take the message a run of [sendFiles] transmits for the
    selected file [f] (position [i] of the batch). When the name and the
    MIME type of [f] are non-empty, the receiver appends to its collection
    exactly one file object, with the name, the MIME type and the bytes of
    [f]. When the name or the MIME type of [f] is empty, the receiver
    appends nothing. In no case does it append an object that differs
    from [f] in name, MIME type or bytes. *)
Theorem file_round_trip
    (s s' : MobileUpload.State) (c : MobileUpload.DataConnection)
    (i : nat) (f : File) (m : Payload) (r : PhoneUploadModal.State) :
  MobileUpload.connRef s = Some c →
  MobileUpload.sendFiles s = JS.Normal s' →
  MobileUpload.selectedFiles s !! i = Some f →
  MobileUpload.sent s' !! (length (MobileUpload.outbox c) + i) = Some m →
  (name f ≠ ""%string → type f ≠ ""%string →
     ∃ g, PhoneUploadModal.receivedFilesRef (PhoneUploadModal.conn_data m r)
          = PhoneUploadModal.receivedFilesRef r ++ [g]
          ∧ name g = name f ∧ type g = type f ∧ data g = data f)
  ∧ (name f = ""%string ∨ type f = ""%string →
     PhoneUploadModal.receivedFilesRef (PhoneUploadModal.conn_data m r)
     = PhoneUploadModal.receivedFilesRef r)
  ∧ (∀ g, PhoneUploadModal.receivedFilesRef (PhoneUploadModal.conn_data m r)
          = PhoneUploadModal.receivedFilesRef r ++ [g] →
          name g = name f ∧ type g = type f ∧ data g = data f).
Proof.
  intros Hc Hrun Hf Hm.
  rewrite (sendFiles_message_at s c s' i f m Hc Hrun Hf Hm).
  rewrite conn_data_file_message. split; [|split].
  - intros Hn Ht. unfold JS.truthy.
    rewrite !bool_decide_eq_true_2 by assumption. simpl.
    eexists. split; [reflexivity|]. auto.
  - unfold JS.truthy. intros [E|E]; rewrite E; simpl; [reflexivity|].
    by rewrite andb_false_r.
  - intros g Hg. destruct (JS.truthy (name f) && JS.truthy (type f)).
    + apply app_inv_head in Hg. injection Hg as <-. auto.
    + apply (f_equal length) in Hg. rewrite length_app in Hg. simpl in Hg. lia.
Qed.

Lemma file_round_trip_witness :
  let s' := MobileUpload.setStatus MobileUpload.done
              (MobileUpload.setSendProgress 2
                 (MobileUpload.conn_send done_message
                    (MobileUpload.conn_send (file_message Examples.png 1 2)
                       (MobileUpload.conn_send (file_message Examples.jpeg 0 2)
                          (MobileUpload.setTotalFiles 2 (MobileUpload.setStatus MobileUpload.sending Examples.ready)))))) in
  MobileUpload.sendFiles Examples.ready = JS.Normal s'
  ∧ ∃ g, PhoneUploadModal.receivedFilesRef
             (PhoneUploadModal.conn_data (file_message Examples.png 1 2) PhoneUploadModal.init)
          = PhoneUploadModal.receivedFilesRef PhoneUploadModal.init ++ [g]
          ∧ name g = "b.png"%string ∧ type g = "image/png"%string ∧ data g = data Examples.png.
Proof.
  simpl.
  split; [reflexivity|].
  pose proof (file_round_trip Examples.ready _ {| MobileUpload.outbox := [] |} 1 Examples.png
                (file_message Examples.png 1 2) PhoneUploadModal.init
                eq_refl eq_refl eq_refl eq_refl) as [H1 _].
  apply H1; discriminate.
Defined.

(** The rebuilt file is the file that was sent, attribute by attribute. *)
Lemma rebuilt_file f :
  new_File [new_Blob [arrayBuffer f] (type f)] (name f) (type f) = f.
Proof. destruct f as [nm ty d]. unfold new_File, new_Blob. simpl. by rewrite !app_nil_r. Qed.

(** Feeding the receiver file messages of files with a name and a MIME
    type stores the files in order and delivers nothing yet. *)
Lemma receive_batch files : ∀ msgs r,
  Forall2 (fun f m => ∃ i total, m = file_message f i total) files msgs →
  Forall (fun f => name f ≠ ""%string ∧ type f ≠ ""%string) files →
  PhoneUploadModal.receivedFilesRef (foldl PhoneUploadModal.step r (PhoneUploadModal.Data <$> msgs))
  = PhoneUploadModal.receivedFilesRef r ++ files
  ∧ PhoneUploadModal.delivered (foldl PhoneUploadModal.step r (PhoneUploadModal.Data <$> msgs))
    = PhoneUploadModal.delivered r.
Proof.
  induction files as [|f files IH]; intros msgs r H2 Hall.
  - apply Forall2_nil_inv_l in H2 as ->. simpl. by rewrite app_nil_r.
  - apply Forall2_cons_inv_l in H2 as (m & msgs' & (i & total & ->) & H2 & ->).
    apply Forall_cons in Hall as [[Hn Ht] Hall].
    rewrite fmap_cons. cbn [foldl PhoneUploadModal.step].
    assert (PhoneUploadModal.is_file (file_message f i total) = true) as Hf.
    { unfold PhoneUploadModal.is_file, JS.truthy_opt, JS.truthy. simpl.
      by rewrite !bool_decide_eq_true_2. }
    destruct (conn_data_accepted (file_message f i total) r (arrayBuffer f) (name f) (type f)
                Hf eq_refl eq_refl eq_refl) as (Hfiles & Hdel & _).
    destruct (IH msgs' (PhoneUploadModal.conn_data (file_message f i total) r) H2 Hall)
      as [-> ->].
    rewrite Hfiles, Hdel, rebuilt_file. by rewrite <- app_assoc.
Qed.

(** A whole transfer: what a run of [sendFiles] puts on a fresh channel,
    received in order by a receiver that has just accepted the connection,
    leaves the receiver in [done] with the selected files delivered once,
    in the order of the selection. *)
Lemma transfer_end_to_end s s' :
  MobileUpload.connRef s = Some {| MobileUpload.outbox := [] |} →
  MobileUpload.selectedFiles s ≠ [] →
  Forall (fun f => name f ≠ ""%string ∧ type f ≠ ""%string) (MobileUpload.selectedFiles s) →
  MobileUpload.sendFiles s = JS.Normal s' →
  let r := foldl PhoneUploadModal.step (PhoneUploadModal.run [PhoneUploadModal.Connection])
             (PhoneUploadModal.Data <$> MobileUpload.sent s') in
  PhoneUploadModal.status r = PhoneUploadModal.done
  ∧ PhoneUploadModal.receivedFilesRef r = MobileUpload.selectedFiles s
  ∧ PhoneUploadModal.delivered r = [MobileUpload.selectedFiles s].
Proof.
  intros Hc Hne Hall Hrun.
  destruct (sendFiles_spec s _ Hc Hne) as (s'' & Hrun' & Hc' & _).
  rewrite Hrun in Hrun'. injection Hrun' as <-.
  unfold MobileUpload.sent. rewrite Hc'. cbn [MobileUpload.outbox app].
  rewrite fmap_app, foldl_app, fmap_cons. cbn [foldl fmap list_fmap PhoneUploadModal.step].
  rewrite conn_data_done by reflexivity.
  destruct (receive_batch (MobileUpload.selectedFiles s)
              (MobileUpload.batch_messages (MobileUpload.selectedFiles s))
              (PhoneUploadModal.run [PhoneUploadModal.Connection])) as [Hfiles Hdel].
  - apply Forall2_same_length_lookup. split; [by rewrite batch_messages_length|].
    intros i f m Hf Hm. rewrite batch_messages_lookup, Hf in Hm.
    injection Hm as <-. eauto.
  - exact Hall.
  - simpl. rewrite Hfiles, Hdel. auto.
Qed.

End RoundTrip.

(** * Role selection and the published address *)

Section RoleSelection.
Import Main.

Lemma has_spec params name :
  has params name = true ↔ ∃ v, (name, v) ∈ params.
Proof.
  unfold has. rewrite bool_decide_eq_true.
  induction params as [|[k v] rest IH]; simpl.
  - split; [intros [? ?]; discriminate | intros [v H]; by apply not_elem_of_nil in H].
  - case_bool_decide as Hk.
    + subst k. split; [|by eauto]. intros _. exists v. apply list_elem_of_here.
    + rewrite IH. split.
      * intros [w Hw]. exists w. by apply list_elem_of_further.
      * intros [w Hw]. apply elem_of_cons in Hw as [Hw|Hw]; [congruence | by exists w].
Qed.

(** C5 as stated fails: with [?mode=upload&peer=] the sender role is
    selected although the query string has no non-empty [peer] parameter;
    the sender then starts in [error] for want of an identifier. *)
Lemma empty_peer_selects_sender :
  render Examples.empty_peer_query = SenderRole
  ∧ has_mode_upload Examples.empty_peer_query
  ∧ ¬ has_nonempty_peer Examples.empty_peer_query
  ∧ MobileUpload.status (MobileUpload.mount (remotePeerId Examples.empty_peer_query))
    = MobileUpload.error.
Proof.
  split; [reflexivity|]. split; [apply list_elem_of_here|]. split; [|reflexivity].
  intros (v & Hin & Hv). unfold Examples.empty_peer_query in Hin.
  apply elem_of_cons in Hin as [Hin|Hin]; [discriminate|].
  apply elem_of_cons in Hin as [Hin|Hin]; [congruence|].
  by apply not_elem_of_nil in Hin.
Qed.

(** C5, amended. The sender role is selected exactly when the first
    [mode] parameter of the query string is [upload] and a [peer]
    parameter is present, whatever its value; in every other case the
    receiver role is selected. *)
Theorem role_selection (params : URLSearchParams) :
  (render params = SenderRole ↔
     get params "mode" = Some "upload"%string ∧ ∃ v, ("peer"%string, v) ∈ params)
  ∧ (render params = ReceiverRole ↔
     ¬ (get params "mode" = Some "upload"%string ∧ ∃ v, ("peer"%string, v) ∈ params)).
Proof.
  unfold render, isMobileUpload. rewrite <- has_spec.
  case_bool_decide as Hm; destruct (has params "peer"); simpl.
  - split; split; [auto | auto | discriminate | intros H; destruct H; auto].
  - split; split; [discriminate | intros [_ ?]; discriminate | | auto].
    intros _ [_ ?]. discriminate.
  - split; split; [discriminate | intros [? _]; contradiction | | auto].
    intros _ [? _]. contradiction.
  - split; split; [discriminate | intros [? _]; contradiction | | auto].
    intros _ [? _]. contradiction.
Qed.

Lemma role_selection_witness :
  render [("mode"%string, "upload"%string); ("peer"%string, "abc-123"%string)] = SenderRole
  ∧ render [("peer"%string, "abc-123"%string)] = ReceiverRole.
Proof.
  split.
  - apply (proj1 (role_selection _)). split; [reflexivity|].
    exists "abc-123"%string. apply list_elem_of_further, list_elem_of_here.
  - apply (proj2 (role_selection _)). intros [Hmode _]. discriminate.
Defined.

End RoleSelection.

Section PublishedAddress.
Import ViteConfig PhoneUploadModal.

Lemma first_lan_address_spec ifaces a :
  first_lan_address ifaces = Some a →
  ∃ iface, iface ∈ ifaces ∧ family iface = "IPv4"%string
           ∧ internal iface = false ∧ address iface = a.
Proof.
  induction ifaces as [|iface rest IH]; simpl; [discriminate|].
  destruct (bool_decide (family iface = "IPv4"%string) && negb (internal iface)) eqn:E.
  - intros [= <-]. apply andb_true_iff in E as [Ef Ei].
    apply bool_decide_eq_true in Ef. apply negb_true_iff in Ei.
    exists iface. split; [apply list_elem_of_here | auto].
  - intros H. destruct (IH H) as (i & Hin & Hrest).
    exists i. split; [by apply list_elem_of_further | exact Hrest].
Qed.

(** [getLocalIP] answers with the address of an interface that is IPv4 and
    not internal, or with ['localhost'] when the machine has none. *)
Lemma getLocalIP_spec interfaces :
  (scan_interfaces interfaces = None ∧ getLocalIP interfaces = "localhost"%string)
  ∨ ∃ ifname ifaces iface,
      (ifname, Some ifaces) ∈ interfaces ∧ iface ∈ ifaces
      ∧ family iface = "IPv4"%string ∧ internal iface = false
      ∧ address iface = getLocalIP interfaces.
Proof.
  unfold getLocalIP.
  induction interfaces as [|[ifname o] rest IH]; simpl; [by left|].
  destruct (first_lan_address (default [] o)) as [a|] eqn:E.
  - right. destruct o as [ifaces|]; simpl in E; [|discriminate].
    destruct (first_lan_address_spec _ _ E) as (iface & Hin & Hf & Hi & Ha).
    exists ifname, ifaces, iface. simpl. split; [apply list_elem_of_here | auto].
  - destruct IH as [IH|(n & l & i & Hin & Hrest)]; [by left|].
    right. exists n, l, i. split; [by apply list_elem_of_further | exact Hrest].
Qed.

(** C6 as stated fails twice. A page opened under another loopback name,
    here the IPv6 loopback address, is published under that name although
    a LAN address was resolved; and on a build machine without a LAN
    interface the address put in place of [localhost] is [localhost]
    itself, which no second device can reach. *)
Lemma other_loopback_host_is_published :
  SpecTerms.is_loopback_name (hostname MoreExamples.ipv6_page) = true
  ∧ getLocalIP Examples.laptop = "192.168.1.23"%string
  ∧ shareable_url (LOCAL_IP Examples.laptop) MoreExamples.ipv6_page "abc-123"
    = "http://[::1]:3000?mode=upload&peer=abc-123"%string
  ∧ getLocalIP MoreExamples.offline_machine = "localhost"%string
  ∧ shareable_url (LOCAL_IP MoreExamples.offline_machine) Examples.dev_page "abc-123"
    = "http://localhost:3000?mode=upload&peer=abc-123"%string.
Proof. repeat split. Qed.

(** C6, amended. With the address [lan] that [getLocalIP] resolved at build time
    (non-empty), the published address is scheme, host, port and the
    upload query, where the host is [lan] when the page's host is
    [localhost] or [127.0.0.1] and the page's own host otherwise; the
    scheme and the port are the page's in both cases. [lan] is the address
    of a network interface that is IPv4 and not internal, and [localhost]
    on a machine without one. *)
Theorem shareable_url_host (interfaces : NetworkInterfaces) (loc : Location) (id : string) :
  let lan := getLocalIP interfaces in
  let port_part := if bool_decide (port loc = ""%string) then ""%string else ":" +:+ port loc in
  lan ≠ ""%string →
  ((hostname loc = "localhost"%string ∨ hostname loc = "127.0.0.1"%string) →
     shareable_url (LOCAL_IP interfaces) loc id
     = (protocol loc +:+ "//" +:+ lan +:+ port_part) +:+ "?mode=upload&peer=" +:+ id)
  ∧ (hostname loc ≠ "localhost"%string → hostname loc ≠ "127.0.0.1"%string →
     shareable_url (LOCAL_IP interfaces) loc id
     = (protocol loc +:+ "//" +:+ hostname loc +:+ port_part) +:+ "?mode=upload&peer=" +:+ id)
  ∧ qrUrl (peer_open (LOCAL_IP interfaces) loc id init)
    = shareable_url (LOCAL_IP interfaces) loc id
  ∧ (lan = "localhost"%string
     ∨ ∃ ifname ifaces iface,
         (ifname, Some ifaces) ∈ interfaces ∧ iface ∈ ifaces
         ∧ family iface = "IPv4"%string ∧ internal iface = false
         ∧ address iface = lan).
Proof.
  intros lan port_part Hlan.
  assert (JS.or_str (LOCAL_IP interfaces) (hostname loc) = lan) as Hor.
  { unfold LOCAL_IP, JS.or_str, JS.truthy. by rewrite bool_decide_eq_true_2. }
  assert ((if JS.truthy (port loc) then ":" +:+ port loc else "") = port_part) as Hport.
  { unfold JS.truthy, port_part. by repeat case_bool_decide. }
  split; [|split; [|split; [reflexivity|]]].
  3: { destruct (getLocalIP_spec interfaces) as [[_ H]|H]; [by left | by right]. }
  all: unfold shareable_url; rewrite Hor, Hport.
  - intros Hloop. replace (is_loopback (hostname loc)) with true; [reflexivity|].
    symmetry. unfold is_loopback. apply orb_true_iff.
    rewrite !bool_decide_eq_true. exact Hloop.
  - intros H1 H2. replace (is_loopback (hostname loc)) with false; [reflexivity|].
    symmetry. unfold is_loopback. apply orb_false_iff.
    by rewrite !bool_decide_eq_false.
Qed.

Lemma shareable_url_host_witness :
  ("192.168.1.23"%string ≠ ""%string)
  ∧ shareable_url (LOCAL_IP Examples.laptop) Examples.dev_page "abc-123"
    = "http://192.168.1.23:3000?mode=upload&peer=abc-123"%string.
Proof.
  split; [discriminate|].
  apply (proj1 (shareable_url_host Examples.laptop Examples.dev_page "abc-123"
                  ltac:(discriminate))).
  left. reflexivity.
Defined.

End PublishedAddress.

(** * OCR extraction and document assembly *)

Section ExtractionClaims.
Import Wire App.

Variable JSON_parse : string → option json.
Variable generateContent : File → JS.completion GenerateContentResponse.

Lemma or_str_empty o : JS.or_str o "" = default ""%string o.
Proof.
  destruct o as [s|]; [|reflexivity]. simpl. unfold JS.truthy.
  case_bool_decide as H; [reflexivity|].
  destruct (decide (s = ""%string)) as [->|]; [reflexivity | contradiction].
Qed.

(** The [try]/[catch] never lets the parse error out. *)
Lemma parse_response_total response :
  parse_response JSON_parse response = JS.Normal (entry_of JSON_parse response).
Proof.
  unfold parse_response, entry_of, JSON_parse_c, fallback_entry, raw_text.
  destruct (JSON_parse _); simpl; [reflexivity|].
  by rewrite or_str_empty.
Qed.

(** When the collaborator answers every request, the loop adds one entry
    per image, in order. *)
Lemma extract_loop files : ∀ answers acc,
  Forall2 (fun fileItem response => generateContent (file fileItem) = JS.Normal response)
    files answers →
  JS.for_each (extract_one JSON_parse generateContent) files acc
  = JS.Normal (acc ++ (entry_of JSON_parse <$> answers)).
Proof.
  induction files as [|fileItem files IH]; intros answers acc H.
  - apply Forall2_nil_inv_l in H as ->. simpl. by rewrite app_nil_r.
  - apply Forall2_cons_inv_l in H as (response & answers' & Hr & H & ->).
    simpl. unfold extract_one at 1, mbind, completion_bind.
    rewrite Hr. simpl. rewrite parse_response_total. simpl.
    rewrite (IH answers' _ H). by rewrite <- app_assoc.
Qed.


End ExtractionClaims.



Section ConversionFacts.
Import App.

Variable push_item : json → Assembly → JS.completion Assembly.
Hypothesis push_item_block :
  ∀ block acc, push_item (json_of_block block) acc = JS.Normal (push_block acc block).

Lemma for_each_push_item (blocks : list Block) : ∀ acc,
  JS.for_each push_item (json_of_block <$> blocks) acc
  = JS.Normal (foldl push_block acc blocks).
Proof.
  induction blocks as [|b blocks IH]; intros acc; [reflexivity|].
  rewrite fmap_cons. simpl. rewrite push_item_block. simpl. apply IH.
Qed.

(** On entries that are arrays of blocks the loops over parsed values
    build the document of [convertToDocx]. *)
Lemma for_each_push_entry (data : list (list Block)) : ∀ acc,
  JS.for_each (Conversion.push_entry push_item)
    ((fun blocks => JArray (json_of_block <$> blocks)) <$> data) acc
  = JS.Normal (foldl push_image acc data).
Proof.
  induction data as [|blocks data IH]; intros acc; [reflexivity|].
  rewrite fmap_cons. simpl. unfold Conversion.push_entry at 1. simpl.
  unfold mbind, completion_bind. rewrite for_each_push_item. simpl. apply IH.
Qed.

Lemma for_each_throws {A S} (body : A → S → JS.completion S) (l : list A) (x : A) :
  x ∈ l → (∀ s, ∃ e, body x s = JS.Throw e) →
  ∀ s, ∃ e, JS.for_each body l s = JS.Throw e.
Proof.
  intros Hin Hx. induction l as [|a l IH]; [by apply not_elem_of_nil in Hin|].
  intros s. simpl. apply elem_of_cons in Hin as [<-|Hin].
  - destruct (Hx s) as [e ->]. by exists e.
  - destruct (body a s) as [s'|e]; simpl; [by apply IH | by exists e].
Qed.

(** Whatever the docx callback and the later steps do: once the
    extraction has left an entry that is not an array, the conversion
    throws and [handleConvert] shows the failure alert. *)
Lemma non_array_entry_alerts
    (JSON_parse : string → option json)
    (generateContent : Wire.File → JS.completion GenerateContentResponse)
    (finish : Assembly → JS.completion unit)
    (conversionFailed : string) (files : list FileItem)
    (extractedData : list json) (entry : json) :
  extractTextFromImages JSON_parse generateContent files = JS.Normal extractedData →
  entry ∈ extractedData →
  (∀ items, entry ≠ JArray items) →
  files ≠ [] →
  Conversion.handleConvert JSON_parse generateContent push_item finish conversionFailed files
  = Some (Conversion.Alerted conversionFailed).
Proof.
  intros Hextract Hin Hshape Hfiles. unfold Conversion.handleConvert.
  rewrite bool_decide_eq_false_2 by (destruct files; [done | simpl; lia]).
  unfold Conversion.convertToDocx, mbind, completion_bind. rewrite Hextract. simpl.
  destruct (for_each_throws (Conversion.push_entry push_item) extractedData entry Hin)
    with (s := {| children := []; allText := "" |}) as [e ->]; [|reflexivity].
  intros acc. exists "TypeError"%string. unfold Conversion.push_entry.
  destruct entry; try reflexivity. by destruct (Hshape items).
Qed.

End ConversionFacts.

Section AssemblyClaims.
Import App.

(** The paragraphs of one image as the code lays them out: its blocks,
    then the blank paragraph. *)
Lemma foldl_push_block blocks : ∀ acc,
  children (foldl push_block acc blocks) = children acc ++ (block_paragraph <$> blocks).
Proof.
  induction blocks as [|b blocks IH]; intros acc; simpl.
  - by rewrite app_nil_r.
  - rewrite IH. simpl. by rewrite <- app_assoc.
Qed.

Lemma foldl_push_image data : ∀ acc,
  children (foldl push_image acc data)
  = children acc ++ concat ((fun blocks => (block_paragraph <$> blocks) ++ [blank_paragraph]) <$> data).
Proof.
  induction data as [|blocks data IH]; intros acc; simpl.
  - by rewrite app_nil_r.
  - rewrite IH. simpl. rewrite foldl_push_block. by rewrite <- !app_assoc.
Qed.

(** The children of the document: for every image, its paragraphs followed
    by one blank paragraph. *)
Lemma convertToDocx_children data :
  children (convertToDocx data)
  = concat ((fun blocks => (block_paragraph <$> blocks) ++ [blank_paragraph]) <$> data).
Proof. unfold convertToDocx. by rewrite foldl_push_image. Qed.

Lemma block_paragraph_alignment block :
  par_alignment (block_paragraph block)
  = Some (match alignment block with left => LEFT | center => CENTER | right => RIGHT end)
  ∧ par_children (block_paragraph block) = [text block].
Proof. by destruct block as [t []]. Qed.

(** C9 (the code departs from the claim). The document always ends with a
    blank paragraph after the blocks of the last image, so for a single
    image with one block it has two paragraphs where the claim has one. *)
Theorem convertToDocx_blank_after_last_image (data : list (list Block)) (blocks : list Block) :
  last (children (convertToDocx (data ++ [blocks]))) = Some blank_paragraph
  ∧ children (convertToDocx [[{| text := "Hi"; alignment := center |}]])
    = [block_paragraph {| text := "Hi"; alignment := center |}; blank_paragraph]
  ∧ separated_document [[{| text := "Hi"; alignment := center |}]]
    = [block_paragraph {| text := "Hi"; alignment := center |}].
Proof.
  split; [|split; reflexivity].
  rewrite convertToDocx_children, fmap_app, concat_app. simpl.
  rewrite app_nil_r, app_assoc. apply last_snoc.
Qed.

(** Up to that last paragraph the document is the one the claim describes. *)
Lemma convertToDocx_separated data :
  data ≠ [] →
  children (convertToDocx data) = separated_document data ++ [blank_paragraph].
Proof.
  rewrite convertToDocx_children.
  induction data as [|blocks data IH]; [done|]. intros _.
  destruct data as [|blocks' data].
  - simpl. by rewrite app_nil_r.
  - change (separated_document (blocks :: blocks' :: data))
      with ((block_paragraph <$> blocks) ++ [blank_paragraph]
            ++ separated_document (blocks' :: data)).
    rewrite fmap_cons, concat_cons, IH by done.
    by rewrite <- !app_assoc.
Qed.

End AssemblyClaims.

(** * Further properties of the receiver *)

Section ReceiverInvariants.
Import Wire PhoneUploadModal.

(** One event keeps the counter equal to the length of the array. *)
Lemma step_count_invariant s e :
  receivedCount s = length (receivedFilesRef s) →
  receivedCount (step s e) = length (receivedFilesRef (step s e)).
Proof.
  intros Hinv. destruct e as [env loc i| |payload| |]; simpl; try exact Hinv.
  - unfold conn_data. destruct (is_file payload) eqn:Hf.
    + destruct (is_file_true _ Hf) as (Ht & d & nm & mt & -> & -> & -> & _).
      rewrite file_is_not_done by exact Ht. reflexivity.
    + destruct (bool_decide (p_type payload = "done"%string)); exact Hinv.
  - unfold conn_close. destruct (bool_decide _); exact Hinv.
Qed.

(** The counter shown in the modal is the number of files stored, after
    every sequence of events. *)
Theorem receivedCount_is_number_of_files (evs : list Event) :
  receivedCount (run evs) = length (receivedFilesRef (run evs))
  ∧ receivedCount (run evs) = count is_accepted_file evs.
Proof.
  assert (receivedCount (run evs) = length (receivedFilesRef (run evs))) as H.
  { induction evs as [|e evs IH] using rev_ind; [reflexivity|].
    unfold run in *. rewrite foldl_app. simpl. by apply step_count_invariant. }
  split; [exact H|]. rewrite H. apply run_length.
Qed.

(** One event leaves the stored files where they are and adds at most one
    at the end. *)
Lemma step_prefix s e : receivedFilesRef s `prefix_of` receivedFilesRef (step s e).
Proof.
  destruct e as [env loc i| |payload| |]; simpl; try reflexivity.
  - destruct (is_file payload) eqn:Hf.
    + destruct (is_file_true _ Hf) as (_ & d & nm & mt & Hd & Hn & Hm & _).
      destruct (conn_data_accepted payload s d nm mt Hf Hd Hn Hm) as (-> & _).
      by apply prefix_app_r.
    + by rewrite conn_data_rejected.
  - unfold conn_close. by destruct (bool_decide _).
Qed.

Lemma foldl_step_prefix more : ∀ s,
  receivedFilesRef s `prefix_of` receivedFilesRef (foldl step s more).
Proof.
  induction more as [|e more IH]; intros s; simpl; [reflexivity|].
  etrans; [apply step_prefix | apply IH].
Qed.

(** No event removes, replaces or reorders a stored file: what is stored
    after some events is a prefix of what is stored after any more. *)
Theorem received_files_only_grow (evs more : list Event) :
  receivedFilesRef (run evs) `prefix_of` receivedFilesRef (run (evs ++ more)).
Proof. unfold run. rewrite foldl_app. apply foldl_step_prefix. Qed.

(** One event keeps the link between the [done] status and the last call
    of [onFilesReceived]. *)
Lemma step_done_invariant s e :
  (status s = done → last (delivered s) = Some (receivedFilesRef s)) →
  status (step s e) = done →
  last (delivered (step s e)) = Some (receivedFilesRef (step s e)).
Proof.
  intros Hinv. destruct e as [env loc i| |payload| |]; simpl; try discriminate.
  - unfold conn_data. destruct (is_file payload) eqn:Hf.
    + destruct (is_file_true _ Hf) as (Ht & d & nm & mt & -> & -> & -> & _).
      rewrite file_is_not_done by exact Ht. discriminate.
    + destruct (bool_decide (p_type payload = "done"%string)); [|exact Hinv].
      intros _. simpl. apply last_snoc.
  - unfold conn_close. destruct (bool_decide _); [|exact Hinv].
    intros _. simpl. apply last_snoc.
Qed.

(** Whenever the modal shows [done], the hosting application has been
    called, and its last call carried exactly the files now stored. *)
Theorem done_means_delivered (evs : list Event) :
  status (run evs) = done →
  last (delivered (run evs)) = Some (receivedFilesRef (run evs)).
Proof.
  induction evs as [|e evs IH] using rev_ind; [discriminate|].
  unfold run in *. rewrite foldl_app. simpl. by apply step_done_invariant.
Qed.

Lemma done_means_delivered_witness :
  last (delivered (run [Connection; Data (file_message Examples.jpeg 0 1); Close]))
  = Some [Examples.jpeg].
Proof.
  apply (done_means_delivered [Connection; Data (file_message Examples.jpeg 0 1); Close]).
  reflexivity.
Defined.

(** A message whose type is neither [file] nor [done] changes nothing. *)
Theorem unknown_message_type_is_ignored (payload : Payload) (s : State) :
  p_type payload ≠ "file"%string →
  p_type payload ≠ "done"%string →
  conn_data payload s = s.
Proof.
  intros Hfile Hdone. unfold conn_data, is_file.
  rewrite (bool_decide_eq_false_2 _ Hfile), (bool_decide_eq_false_2 _ Hdone).
  reflexivity.
Qed.

Lemma unknown_message_type_is_ignored_witness :
  let s := run [Connection; Data (file_message Examples.jpeg 0 2)] in
  conn_data MoreExamples.ping s = s.
Proof.
  simpl. apply unknown_message_type_is_ignored; discriminate.
Defined.

(** A channel that closes without a done message: when files of a batch
    (each with a name and a MIME type) have arrived, the close puts the
    receiver in [done] and hands over exactly those files, once; when none
    has arrived, the close changes nothing. *)
Theorem close_finalizes_what_arrived (files : list File) (msgs : list Payload) :
  Forall2 (fun f m => ∃ i total, m = file_message f i total) files msgs →
  Forall (fun f => name f ≠ ""%string ∧ type f ≠ ""%string) files →
  let before := run (Connection :: (Data <$> msgs)) in
  let after := run (Connection :: (Data <$> msgs) ++ [Close]) in
  (files ≠ [] → status after = done ∧ delivered after = [files]
                ∧ receivedFilesRef after = files)
  ∧ (files = [] → after = before ∧ status after = connected ∧ delivered after = []).
Proof.
  intros H2 Hall before after.
  destruct (receive_batch files msgs (run [Connection]) H2 Hall) as [Hfiles Hdel].
  assert (after = conn_close before) as ->.
  { unfold after, before, run. rewrite app_comm_cons, foldl_app. reflexivity. }
  assert (before = foldl step (run [Connection]) (Data <$> msgs)) as Hb by reflexivity.
  rewrite <- Hb in Hfiles, Hdel. simpl in Hfiles, Hdel.
  split.
  - intros Hne. unfold conn_close.
    rewrite bool_decide_eq_true_2
      by (rewrite Hfiles; destruct files; [done | simpl; lia]).
    simpl. rewrite Hfiles, Hdel. auto.
  - intros ->. apply Forall2_nil_inv_l in H2. subst msgs. auto.
Qed.

Lemma close_finalizes_what_arrived_witness :
  let msgs := [file_message Examples.jpeg 0 3; file_message Examples.png 1 3] in
  let after := run (Connection :: (Data <$> msgs) ++ [Close]) in
  status after = done
  ∧ delivered after = [[Examples.jpeg; Examples.png]]
  ∧ receivedFilesRef after = [Examples.jpeg; Examples.png].
Proof.
  simpl.
  apply (proj1 (close_finalizes_what_arrived [Examples.jpeg; Examples.png]
                  [file_message Examples.jpeg 0 3; file_message Examples.png 1 3]
                  ltac:(repeat constructor; eauto)
                  ltac:(repeat constructor; discriminate))).
  discriminate.
Defined.

End ReceiverInvariants.

(** * Further properties of the transfer and of the role selection *)

Lemma transfer_end_to_end_witness :
  ∃ s', MobileUpload.sendFiles Examples.ready = JS.Normal s'
    ∧ let r := foldl PhoneUploadModal.step (PhoneUploadModal.run [PhoneUploadModal.Connection])
                 (PhoneUploadModal.Data <$> MobileUpload.sent s') in
      PhoneUploadModal.status r = PhoneUploadModal.done
      ∧ PhoneUploadModal.receivedFilesRef r = [Examples.jpeg; Examples.png]
      ∧ PhoneUploadModal.delivered r = [[Examples.jpeg; Examples.png]].
Proof.
  eexists. split; [reflexivity|].
  apply (transfer_end_to_end Examples.ready);
    [reflexivity | discriminate | repeat constructor; discriminate | reflexivity].
Defined.

Section SenderLaunch.
Import Main.

Lemma has_get params name : has params name = true → ∃ v, get params name = Some v.
Proof. unfold has. rewrite bool_decide_eq_true. intros [v Hv]. by exists v. Qed.

(** When the launch URL selects the sender role, the sender starts in
    [error] exactly when the first [peer] parameter is empty, and in
    [connecting] otherwise, with that parameter as the identifier to
    connect to. *)
Theorem sender_start_state (params : URLSearchParams) :
  render params = SenderRole →
  ∃ v, get params "peer" = Some v
     ∧ (v = ""%string → MobileUpload.status (MobileUpload.mount (remotePeerId params))
                        = MobileUpload.error)
     ∧ (v ≠ ""%string → remotePeerId params = v
                        ∧ MobileUpload.status (MobileUpload.mount (remotePeerId params))
                          = MobileUpload.connecting).
Proof.
  unfold render, isMobileUpload.
  destruct (bool_decide (get params "mode" = Some "upload"%string)); [|discriminate].
  destruct (has params "peer") eqn:Hhas; [|discriminate]. intros _.
  destruct (has_get _ _ Hhas) as [v Hv]. exists v. split; [exact Hv|].
  unfold remotePeerId, MobileUpload.mount. rewrite Hv. simpl. unfold JS.truthy. split.
  - intros ->. reflexivity.
  - intros Hne. rewrite bool_decide_eq_true_2 by exact Hne. simpl.
    by rewrite bool_decide_eq_true_2.
Qed.

Lemma sender_start_state_witness :
  ∃ v, get MoreExamples.scanned_query "peer" = Some v
     ∧ (v = ""%string →
        MobileUpload.status (MobileUpload.mount (remotePeerId MoreExamples.scanned_query))
        = MobileUpload.error)
     ∧ (v ≠ ""%string →
        remotePeerId MoreExamples.scanned_query = v
        ∧ MobileUpload.status (MobileUpload.mount (remotePeerId MoreExamples.scanned_query))
          = MobileUpload.connecting).
Proof. apply (sender_start_state MoreExamples.scanned_query). reflexivity. Defined.

End SenderLaunch.

Section LanAddress.
Import ViteConfig.

Lemma first_lan_address_head ifaces :
  first_lan_address ifaces
  = address <$> head (filter (fun i => family i = "IPv4"%string ∧ internal i = false) ifaces).
Proof.
  induction ifaces as [|iface rest IH]; [reflexivity|]. simpl.
  destruct (bool_decide (family iface = "IPv4"%string) && negb (internal iface)) eqn:E.
  - apply andb_true_iff in E as [Ef Ei].
    apply bool_decide_eq_true in Ef. apply negb_true_iff in Ei.
    by rewrite filter_cons_True.
  - rewrite filter_cons_False; [exact IH|].
    intros [Ef Ei]. rewrite Ei, (bool_decide_eq_true_2 _ Ef) in E. discriminate.
Qed.

(** [getLocalIP] answers with the address of the first interface entry, in
    the order the interfaces and their entries are listed, that is IPv4
    and not internal; entries before it that are internal or not IPv4 are
    passed over; without such an entry the answer is [localhost]. *)
Theorem getLocalIP_first_lan_entry (interfaces : NetworkInterfaces) :
  getLocalIP interfaces
  = default "localhost"%string
      (address <$> head (filter (fun i => family i = "IPv4"%string ∧ internal i = false)
                           (concat ((fun entry => default [] entry.2) <$> interfaces)))).
Proof.
  unfold getLocalIP. f_equal.
  induction interfaces as [|[ifname o] rest IH]; [reflexivity|]. simpl.
  rewrite filter_app, first_lan_address_head.
  destruct (filter _ (default [] o)) as [|i l]; simpl; [exact IH | reflexivity].
Qed.

End LanAddress.

(** * Further properties of [App.tsx] *)

Section ProgressFacts.
Import Progress.

Lemma progress_after_S n : progress_after (S n) = tick (progress_after n).
Proof. reflexivity. Qed.

(** The ticker climbs by ten per tick from 0 and stops at 90: after [n]
    ticks the progress is the smaller of [10 n] and 90, so it never shows
    more than 90 before the conversion itself has finished. *)
Theorem progress_stops_at_90 (n : nat) :
  progress_after n = Z.min (10 * Z.of_nat n) 90.
Proof.
  induction n as [|n IH]; [reflexivity|].
  rewrite progress_after_S, IH. unfold tick.
  destruct (Z.leb_spec 90 (Z.min (10 * Z.of_nat n) 90)); lia.
Qed.

End ProgressFacts.

Section AssemblyFacts.
Import App.

Lemma filter_block_paragraphs (blocks : list Block) :
  filter (fun p => is_Some (par_spacing_after p)) (block_paragraph <$> blocks)
  = block_paragraph <$> blocks.
Proof.
  induction blocks as [|b blocks IH]; [reflexivity|].
  rewrite fmap_cons, filter_cons_True by (simpl; eauto). by rewrite IH.
Qed.

(** The document holds one paragraph per block and one more per image;
    its paragraphs that carry a spacing are the paragraphs of all blocks in
    reading order, and their text runs are the texts of the blocks. *)
Theorem document_holds_every_block (data : list (list Block)) :
  length (children (convertToDocx data)) = length (concat data) + length data
  ∧ filter (fun p => is_Some (par_spacing_after p)) (children (convertToDocx data))
    = block_paragraph <$> concat data
  ∧ concat (par_children <$> filter (fun p => is_Some (par_spacing_after p))
                               (children (convertToDocx data)))
    = text <$> concat data.
Proof.
  rewrite convertToDocx_children.
  assert (filter (fun p => is_Some (par_spacing_after p))
            (concat ((fun blocks => (block_paragraph <$> blocks) ++ [blank_paragraph]) <$> data))
          = block_paragraph <$> concat data) as Hfilter.
  { induction data as [|blocks data IH]; [reflexivity|].
    rewrite fmap_cons, !concat_cons, !filter_app, IH, filter_block_paragraphs, fmap_app.
    rewrite filter_cons_False by (simpl; intros [? ?]; discriminate).
    rewrite filter_nil. by rewrite app_nil_r. }
  split; [|split].
  - clear Hfilter. induction data as [|blocks data IH]; [reflexivity|].
    rewrite fmap_cons, !concat_cons, !length_app, IH, length_fmap. simpl. lia.
  - exact Hfilter.
  - rewrite Hfilter. clear Hfilter.
    induction (concat data) as [|b l IH]; [reflexivity|].
    rewrite !fmap_cons, concat_cons, IH. reflexivity.
Qed.

End AssemblyFacts.

Section FileNameFacts.
Import FileName.

Lemma hyphen_eqb c : (c =? hyphen)%N = true ↔ c = hyphen.
Proof. apply N.eqb_eq. Qed.

Lemma has_hyphen_pair_unfold c c' r :
  has_hyphen_pair (c :: c' :: r)
  = ((c =? hyphen)%N && (c' =? hyphen)%N) || has_hyphen_pair (c' :: r).
Proof. reflexivity. Qed.

Lemma has_hyphen_pair_cons c s :
  has_hyphen_pair (c :: s) = false ↔
  (c = hyphen → head s ≠ Some hyphen) ∧ has_hyphen_pair s = false.
Proof.
  destruct s as [|c' r]; [simpl; split; [by intros _ | done]|].
  rewrite has_hyphen_pair_unfold, orb_false_iff, andb_false_iff. simpl head.
  rewrite <- !not_true_iff_false, !hyphen_eqb. split.
  - intros [[H|H] Hp]; (split; [|exact Hp]); [intros Hc; contradiction | intros _ [= Hc']; contradiction].
  - intros [H Hp]. split; [|exact Hp].
    destruct (decide (c = hyphen)) as [Hc|Hc]; [right | by left].
    intros ->. by apply (H Hc).
Qed.

Lemma collapse_hyphens_unfold c c' r :
  collapse_hyphens (c :: c' :: r)
  = if (c =? hyphen)%N && (c' =? hyphen)%N then collapse_hyphens (c' :: r)
    else c :: collapse_hyphens (c' :: r).
Proof. reflexivity. Qed.

Lemma head_collapse_hyphens s : head (collapse_hyphens s) = head s.
Proof.
  induction s as [|c [|c' r] IH]; [reflexivity | reflexivity |].
  rewrite collapse_hyphens_unfold.
  destruct ((c =? hyphen)%N && (c' =? hyphen)%N) eqn:E; [|reflexivity].
  rewrite IH. simpl. apply andb_true_iff in E as [Hc Hc'].
  apply hyphen_eqb in Hc, Hc'. congruence.
Qed.

(** After the second replacement no two hyphens are adjacent. *)
Lemma collapse_hyphens_no_pair s : has_hyphen_pair (collapse_hyphens s) = false.
Proof.
  induction s as [|c [|c' r] IH]; [reflexivity | reflexivity |].
  rewrite collapse_hyphens_unfold.
  destruct ((c =? hyphen)%N && (c' =? hyphen)%N) eqn:E; [exact IH|].
  apply has_hyphen_pair_cons. split; [|exact IH].
  intros Hc. rewrite head_collapse_hyphens. simpl. intros [= Hc'].
  rewrite Hc, Hc' in E. discriminate.
Qed.

Lemma collapse_hyphens_Forall (P : N → Prop) s :
  Forall P s → Forall P (collapse_hyphens s).
Proof.
  induction s as [|c [|c' r] IH]; [done | done |]. intros H.
  rewrite collapse_hyphens_unfold. apply Forall_cons in H as [Hc H].
  destruct ((c =? hyphen)%N && (c' =? hyphen)%N); [by apply IH|].
  apply Forall_cons. split; [exact Hc | by apply IH].
Qed.

Lemma strip_leading_hyphen_spec s :
  has_hyphen_pair s = false →
  has_hyphen_pair (strip_leading_hyphen s) = false
  ∧ head (strip_leading_hyphen s) ≠ Some hyphen.
Proof.
  destruct s as [|c rest]; [done|]. intros H.
  apply has_hyphen_pair_cons in H as [Hhead Hrest]. simpl.
  destruct (c =? hyphen)%N eqn:E.
  - apply hyphen_eqb in E. auto.
  - split; [by apply has_hyphen_pair_cons|]. simpl. intros [= ->]. discriminate.
Qed.

Lemma strip_leading_hyphen_Forall (P : N → Prop) s :
  Forall P s → Forall P (strip_leading_hyphen s).
Proof.
  destruct s as [|c rest]; [done|]. intros H. simpl.
  destruct (c =? hyphen)%N; [by apply Forall_cons in H as [_ H] | exact H].
Qed.

Lemma strip_trailing_hyphen_unfold c c' r :
  strip_trailing_hyphen (c :: c' :: r) = c :: strip_trailing_hyphen (c' :: r).
Proof. reflexivity. Qed.

Lemma head_strip_trailing_hyphen s c :
  head (strip_trailing_hyphen s) = Some c → head s = Some c.
Proof.
  destruct s as [|a [|a' r]]; [done | | done]. simpl.
  by destruct (a =? hyphen)%N.
Qed.

Lemma strip_trailing_hyphen_nil s :
  strip_trailing_hyphen s = [] → s = [] ∨ s = [hyphen].
Proof.
  destruct s as [|a [|a' r]]; [by left | | done]. simpl.
  destruct (a =? hyphen)%N eqn:E; [|done]. apply hyphen_eqb in E. subst. by right.
Qed.

Lemma strip_trailing_hyphen_spec s :
  has_hyphen_pair s = false →
  has_hyphen_pair (strip_trailing_hyphen s) = false
  ∧ last (strip_trailing_hyphen s) ≠ Some hyphen.
Proof.
  induction s as [|c [|c' r] IH]; [done | |].
  - intros _. simpl. destruct (c =? hyphen)%N eqn:E; [done|].
    split; [done|]. simpl. intros [= ->]. discriminate.
  - intros H. apply has_hyphen_pair_cons in H as [Hhead Hrest].
    destruct (IH Hrest) as [IHp IHl]. rewrite strip_trailing_hyphen_unfold. split.
    + apply has_hyphen_pair_cons. split; [|exact IHp].
      intros Hc Hh. apply head_strip_trailing_hyphen in Hh. by apply Hhead.
    + rewrite last_cons. destruct (last (strip_trailing_hyphen (c' :: r))) as [y|] eqn:El.
      * exact IHl.
      * apply last_None in El. apply strip_trailing_hyphen_nil in El as [El|El]; [done|].
        injection El as -> ->. intros [= ->]. by apply Hhead.
Qed.

Lemma strip_trailing_hyphen_Forall (P : N → Prop) s :
  Forall P s → Forall P (strip_trailing_hyphen s).
Proof.
  induction s as [|c [|c' r] IH]; [done | |]; intros H.
  - simpl. by destruct (c =? hyphen)%N.
  - rewrite strip_trailing_hyphen_unfold. apply Forall_cons in H as [Hc H].
    apply Forall_cons. split; [exact Hc | by apply IH].
Qed.

Lemma strip_trailing_hyphen_head s :
  head s ≠ Some hyphen → head (strip_trailing_hyphen s) ≠ Some hyphen.
Proof. intros H Hh. by apply head_strip_trailing_hyphen in Hh. Qed.

End FileNameFacts.

Section FileNameClaims.
Import FileName.

Ltac unfold_classes :=
  unfold is_name_unit, in_class, is_white_space, is_lower, is_upper, is_digit, hyphen in *.

Ltac to_arith :=
  repeat match goal with
  | H : _ = false |- _ => apply not_true_iff_false in H
  | |- _ = false => apply not_true_iff_false; intros ?
  end;
  rewrite ?orb_true_iff, ?andb_true_iff, ?N.leb_le, ?N.eqb_eq in *.

Lemma lower_unit_charset c :
  in_class c = true → is_name_unit (if is_upper c then (c + 32)%N else c) = true.
Proof.
  unfold_classes. intros H.
  destruct ((65 <=? c)%N && (c <=? 90)%N) eqn:E.
  - apply andb_true_iff in E as [E1 E2]. apply N.leb_le in E1, E2.
    apply orb_true_iff. left. apply orb_true_iff. left.
    apply andb_true_iff. split; apply N.leb_le; lia.
  - rewrite orb_false_r in H. exact H.
Qed.

Lemma lower_unit_hyphen c :
  (if is_upper c then (c + 32)%N else c) = hyphen ↔ c = hyphen.
Proof.
  unfold_classes.
  destruct ((65 <=? c)%N && (c <=? 90)%N) eqn:E; [|done].
  apply andb_true_iff in E as [E1 E2]. apply N.leb_le in E1, E2. lia.
Qed.

Lemma toLowerCase_no_pair s : has_hyphen_pair (toLowerCase s) = has_hyphen_pair s.
Proof.
  unfold toLowerCase.
  induction s as [|c [|c' r] IH]; [reflexivity | reflexivity |].
  rewrite !fmap_cons in *. rewrite !has_hyphen_pair_unfold, IH. f_equal.
  f_equal; apply eq_true_iff_eq; rewrite !hyphen_eqb; apply lower_unit_hyphen.
Qed.

Lemma toLowerCase_head s : head (toLowerCase s) ≠ Some hyphen ↔ head s ≠ Some hyphen.
Proof.
  destruct s as [|c r]; [done|]. simpl.
  split; intros H [= Hc]; apply H; f_equal; by apply lower_unit_hyphen.
Qed.

Lemma toLowerCase_last s : last (toLowerCase s) ≠ Some hyphen ↔ last s ≠ Some hyphen.
Proof.
  unfold toLowerCase. rewrite fmap_last.
  destruct (last s) as [c|]; [|done]. simpl.
  split; intros H [= Hc]; apply H; f_equal; by apply lower_unit_hyphen.
Qed.

Lemma sanitize_well_formed text :
  Forall (fun c => is_name_unit c = true) (sanitize text)
  ∧ head (sanitize text) ≠ Some hyphen
  ∧ last (sanitize text) ≠ Some hyphen
  ∧ has_hyphen_pair (sanitize text) = false.
Proof.
  unfold sanitize.
  set (u := collapse_hyphens (replace_outside_class (trim text))).
  assert (Forall (fun c => in_class c = true) u) as Hclass.
  { apply collapse_hyphens_Forall. unfold replace_outside_class.
    apply Forall_fmap, Forall_true. intros c. simpl.
    destruct (in_class c) eqn:E; [exact E | reflexivity]. }
  pose proof (collapse_hyphens_no_pair (replace_outside_class (trim text))) as Hpair.
  fold u in Hpair.
  destruct (strip_leading_hyphen_spec u Hpair) as [Hpair1 Hhead1].
  destruct (strip_trailing_hyphen_spec _ Hpair1) as [Hpair2 Hlast2].
  split; [|split; [|split]].
  - unfold toLowerCase. apply Forall_fmap.
    eapply Forall_impl;
      [apply strip_trailing_hyphen_Forall, strip_leading_hyphen_Forall, Hclass|].
    intros c Hc. simpl. by apply lower_unit_charset.
  - apply toLowerCase_head. by apply strip_trailing_hyphen_head.
  - by apply toLowerCase_last.
  - by rewrite toLowerCase_no_pair.
Qed.

(** Whatever the collaborator does, the file name is not empty, is made
    of lower-case ASCII letters, digits and hyphens only, neither starts
    nor ends with a hyphen and has no two hyphens in a row. *)
Theorem generated_name_is_well_formed
    (generateContent : JSString → JS.completion (option JSString)) (allText : JSString) :
  let name := generateFileName generateContent allText in
  name ≠ []
  ∧ Forall (fun c => is_name_unit c = true) name
  ∧ head name ≠ Some hyphen
  ∧ last name ≠ Some hyphen
  ∧ has_hyphen_pair name = false.
Proof.
  assert (document ≠ []
          ∧ Forall (fun c => is_name_unit c = true) document
          ∧ head document ≠ Some hyphen
          ∧ last document ≠ Some hyphen
          ∧ has_hyphen_pair document = false) as Hdoc.
  { repeat split; try discriminate. repeat constructor. }
  unfold generateFileName.
  destruct (generateContent (take 500 allText)) as [response_text|e]; [|exact Hdoc].
  simpl. pose proof (sanitize_well_formed (or_else response_text document)) as Hs.
  destruct (sanitize (or_else response_text document)) as [|c rest]; [exact Hdoc|].
  simpl. split; [discriminate | exact Hs].
Qed.

Lemma name_unit_not_white_space c : is_name_unit c = true → is_white_space c = false.
Proof. unfold_classes. intros H. to_arith. lia. Qed.

Lemma name_unit_in_class c : is_name_unit c = true → in_class c = true.
Proof. unfold_classes. intros H. to_arith. lia. Qed.

Lemma name_unit_not_upper c : is_name_unit c = true → is_upper c = false.
Proof. unfold_classes. intros H. to_arith. lia. Qed.

Lemma trim_clean s : Forall (fun c => is_name_unit c = true) s → trim s = s.
Proof.
  assert (∀ t, Forall (fun c => is_name_unit c = true) t → trimStart t = t) as Hstart.
  { intros [|c t] H; [reflexivity|]. apply Forall_cons in H as [Hc _]. simpl.
    by rewrite (name_unit_not_white_space c Hc). }
  intros H. unfold trim. rewrite (Hstart s H).
  rewrite Hstart by (by apply Forall_reverse). apply reverse_involutive.
Qed.

Lemma collapse_hyphens_clean s : has_hyphen_pair s = false → collapse_hyphens s = s.
Proof.
  induction s as [|c [|c' r] IH]; [done | done |]. intros H.
  rewrite has_hyphen_pair_unfold in H. apply orb_false_iff in H as [E Hrest].
  rewrite collapse_hyphens_unfold, E. f_equal. by apply IH.
Qed.

Lemma strip_trailing_hyphen_clean s :
  last s ≠ Some hyphen → strip_trailing_hyphen s = s.
Proof.
  induction s as [|c [|c' r] IH]; [done | |]; intros H.
  - simpl in *. destruct (c =? hyphen)%N eqn:E; [|done].
    apply hyphen_eqb in E. by subst.
  - rewrite strip_trailing_hyphen_unfold. f_equal. apply IH.
    by rewrite last_cons_cons in H.
Qed.

(** An answer that already is a name of that form (not empty, lower-case
    letters, digits and single hyphens, none at either end) is returned
    as it is. *)
Theorem clean_name_is_kept
    (generateContent : JSString → JS.completion (option JSString))
    (allText name : JSString) :
  generateContent (take 500 allText) = JS.Normal (Some name) →
  name ≠ [] →
  Forall (fun c => is_name_unit c = true) name →
  head name ≠ Some hyphen →
  last name ≠ Some hyphen →
  has_hyphen_pair name = false →
  generateFileName generateContent allText = name.
Proof.
  intros Hanswer Hne Hunits Hhead Hlast Hpair.
  unfold generateFileName. rewrite Hanswer.
  assert (or_else (Some name) document = name) as Hor by (by destruct name).
  rewrite Hor. simpl.
  assert (sanitize name = name) as ->; [|exact Hor].
  unfold sanitize. rewrite (trim_clean name Hunits).
  assert (replace_outside_class name = name) as ->.
  { unfold replace_outside_class. rewrite <- (list_fmap_id name) at 2.
    apply Forall_fmap_ext_1. eapply Forall_impl; [exact Hunits|].
    intros c Hc. simpl. by rewrite (name_unit_in_class c Hc). }
  rewrite (collapse_hyphens_clean name Hpair).
  assert (strip_leading_hyphen name = name) as ->.
  { destruct name as [|c rest]; [done|]. simpl.
    destruct (c =? hyphen)%N eqn:E; [|done]. apply hyphen_eqb in E. by subst. }
  rewrite (strip_trailing_hyphen_clean name Hlast).
  unfold toLowerCase. rewrite <- (list_fmap_id name) at 2.
  apply Forall_fmap_ext_1. eapply Forall_impl; [exact Hunits|].
  intros c Hc. simpl. by rewrite (name_unit_not_upper c Hc).
Qed.

Lemma clean_name_is_kept_witness :
  generateFileName (fun _ => JS.Normal (Some MoreExamples.invoice_2024)) []
  = MoreExamples.invoice_2024.
Proof.
  apply clean_name_is_kept;
    [reflexivity | discriminate | repeat constructor | discriminate | discriminate
    | reflexivity].
Defined.

Lemma collapse_all_hyphens s :
  Forall (fun c => c = hyphen) s → collapse_hyphens s = [] ∨ collapse_hyphens s = [hyphen].
Proof.
  induction s as [|c [|c' r] IH]; [by left | |]; intros H.
  - apply Forall_cons in H as [-> _]. by right.
  - apply Forall_cons in H as [-> H]. pose proof H as H'.
    apply Forall_cons in H' as [-> _].
    rewrite collapse_hyphens_unfold. simpl andb. cbv iota. by apply IH.
Qed.

Lemma trimStart_Forall (P : N → Prop) s : Forall P s → Forall P (trimStart s).
Proof.
  induction s as [|c r IH]; [done|]. intros H. simpl.
  destruct (is_white_space c); [|exact H].
  apply IH. by apply Forall_cons in H as [_ H].
Qed.

Lemma trim_Forall (P : N → Prop) s : Forall P s → Forall P (trim s).
Proof.
  intros H. unfold trim.
  by apply Forall_reverse, trimStart_Forall, Forall_reverse, trimStart_Forall.
Qed.

(** The name falls back to [document] when the request is rejected, when
    the answer has no text, and when the answer contains no ASCII letter
    and no digit at all. *)
Theorem name_falls_back_to_document
    (generateContent : JSString → JS.completion (option JSString))
    (allText : JSString) :
  (∀ e, generateContent (take 500 allText) = JS.Throw e →
        generateFileName generateContent allText = document)
  ∧ (generateContent (take 500 allText) = JS.Normal None →
     generateFileName generateContent allText = document)
  ∧ (∀ text, generateContent (take 500 allText) = JS.Normal (Some text) →
       Forall (fun c => is_lower c || is_upper c || is_digit c = false) text →
       generateFileName generateContent allText = document).
Proof.
  unfold generateFileName. split; [|split].
  - intros e ->. reflexivity.
  - intros ->. reflexivity.
  - intros text -> Hnone.
    destruct text as [|c rest]; [reflexivity|].
    change (or_else (Some (c :: rest)) document) with (c :: rest).
    assert (sanitize (c :: rest) = []) as ->; [|reflexivity].
    unfold sanitize.
    assert (Forall (fun c => c = hyphen) (replace_outside_class (trim (c :: rest)))) as Hall.
    { unfold replace_outside_class. apply Forall_fmap.
      eapply Forall_impl; [apply trim_Forall, Hnone|].
      intros a Ha. simpl. unfold in_class.
      destruct (is_lower a || is_upper a || is_digit a) eqn:E; [congruence|].
      simpl. destruct (a =? hyphen)%N eqn:Eh; [by apply hyphen_eqb | reflexivity]. }
    destruct (collapse_all_hyphens _ Hall) as [->| ->]; reflexivity.
Qed.

(** A worked answer: [ Invoice #2024! ] becomes [invoice-2024]. *)
Lemma raw_invoice_name :
  generateFileName MoreExamples.name_oracle [] = MoreExamples.invoice_2024.
Proof. reflexivity. Qed.

End FileNameClaims.

Section ExtractionAbort.
Import Wire App.

Variable JSON_parse : string → option json.
Variable generateContent : File → JS.completion GenerateContentResponse.

Lemma for_each_app {A S} (body : A → S → JS.completion S) l1 l2 s :
  JS.for_each body (l1 ++ l2) s = JS.bind (JS.for_each body l1 s) (JS.for_each body l2).
Proof.
  revert s. induction l1 as [|a l1 IH]; intros s; [reflexivity|]. simpl.
  destruct (body a s) as [s'|e]; simpl; [apply IH | reflexivity].
Qed.

(** The [try] in the loop covers the parse only: when the collaborator
    rejects the request for one image, the whole extraction ends with
    that rejection, whatever was extracted from the images before it and
    whatever the images after it are. *)
Theorem rejected_request_aborts_extraction
    (before after : list FileItem) (failing : FileItem)
    (answers : list GenerateContentResponse) (e : string) :
  Forall2 (fun fileItem response => generateContent (file fileItem) = JS.Normal response)
    before answers →
  generateContent (file failing) = JS.Throw e →
  extractTextFromImages JSON_parse generateContent (before ++ failing :: after) = JS.Throw e.
Proof.
  intros Hbefore Hfail. unfold extractTextFromImages.
  rewrite for_each_app, (extract_loop JSON_parse generateContent before answers [] Hbefore).
  simpl. unfold extract_one at 1, mbind, completion_bind. by rewrite Hfail.
Qed.

End ExtractionAbort.

Lemma rejected_request_aborts_extraction_witness :
  let offline (f : Wire.File) : JS.completion App.GenerateContentResponse :=
    if bool_decide (Wire.type f = "image/png"%string) then JS.Throw "fetch failed"
    else Examples.toy_ocr f in
  App.extractTextFromImages Examples.toy_parse offline
    ([Examples.item Examples.jpeg] ++ Examples.item Examples.png :: [Examples.item Examples.untyped])
  = JS.Throw "fetch failed".
Proof.
  simpl.
  apply (rejected_request_aborts_extraction Examples.toy_parse _
           [Examples.item Examples.jpeg] [Examples.item Examples.untyped]
           (Examples.item Examples.png)
           [{| App.response_text := Some Examples.hi_answer |}]).
  - repeat constructor.
  - reflexivity.
Defined.
